(** * cpp_cache: a generic key-value cache with LRU / MRU eviction

    Shallow embedding of [src/include/cpp_cache.hpp] and the properties of
    its specification.

    Conventions of the embedding
    - [std::size_t] is a [Z] reduced modulo [2^64] after every arithmetic
      operation ([to_size_t]);
    - a [std::list] node is identified by its address, a [nat] handed out by
      a bump allocator ([next_node]); a list iterator is such an address, so
      the iterators kept in [cache_map] alias the nodes of [eviction_list]
      exactly as in the source;
    - undefined behaviour of the C++ program ([back()] of an empty list,
      dereferencing an iterator that is not a node of the list) is the
      result [None];
    - the entry owns its value: for pointer-like value types the entry is
      modelled together with the pointee it owns (the cache "will take
      ownership of value pointers added to the cache"). *)

From Stdlib Require Import ZArith Lia.
From stdpp Require Import ssreflect base option list gmap strings.

#[local] Set Warnings "-rewrite-rw".

Local Open Scope Z_scope.

Module cpp_cache.

(** ** [std::size_t] *)

Definition size_t_modulus : Z := 2 ^ 64.

Definition to_size_t (z : Z) : Z := z `mod` size_t_modulus.

(** ** [size_calc<ValueType>]: the functor computing the size of a value.
    A template specialised per value type, hence a class with one instance
    per specialisation. *)

Class size_calc (ValueType : Type) := size_calc_call : ValueType → Z.

(** The primary template: "Standard entry of size 1". *)
Definition size_calc_unit {ValueType : Type} : size_calc ValueType := λ _, 1.

(** The specialisation of the test suite: [s.length()]. *)
Definition size_calc_string : size_calc string :=
  λ s, Z.of_nat (String.length s).

(** The value returned by [calc_size(v)], a [size_t]. *)
Definition calc_size {V} `{size_calc V} (v : V) : Z :=
  to_size_t (size_calc_call v).

(** ** What [merge(key, value, dirty)] asks of the value type:
    [old_value->merge( *value )] and [old_value->trim(n)]. *)

Class value_ops (V : Type) := {
  value_merge : V → V → V;
  value_trim : V → Z → V }.

(** ** The two eviction strategies (the [_Evict] template argument). *)

Inductive eviction := lru_eviction | mru_eviction.

(** ** Entries and the eviction list *)

Definition iterator := nat.

Section entries.
Context {K V : Type}.

Definition entry_type : Type := K * V * bool.

Definition get0 (e : entry_type) : K := e.1.1.
Definition get1 (e : entry_type) : V := e.1.2.
Definition get2 (e : entry_type) : bool := e.2.

(** A list node: its address and the entry it holds. *)
Definition node : Type := iterator * entry_type.
Definition eviction_type : Type := list node.

(** [*it] *)
Fixpoint deref (it : iterator) (l : eviction_type) : option entry_type :=
  match l with
  | [] => None
  | n :: l' => if decide (n.1 = it) then Some n.2 else deref it l'
  end.

(** The list without the node at [it]. *)
Fixpoint unlink (it : iterator) (l : eviction_type) : eviction_type :=
  match l with
  | [] => []
  | n :: l' => if decide (n.1 = it) then l' else n :: unlink it l'
  end.

(** [l.erase(it)] *)
Definition list_erase (it : iterator) (l : eviction_type)
  : option eviction_type :=
  _ ← deref it l; Some (unlink it l).

(** [l.splice(l.begin(), l, it)] *)
Definition splice_begin (it : iterator) (l : eviction_type)
  : option eviction_type :=
  e ← deref it l; Some ((it, e) :: unlink it l).

(** [l.splice(l.end(), l, it)] *)
Definition splice_end (it : iterator) (l : eviction_type)
  : option eviction_type :=
  e ← deref it l; Some (unlink it l ++ [(it, e)]).

(** [std::get<1>( *it ) = v]: a write through the reference to the value
    of the entry at [it]. *)
Fixpoint store_value (it : iterator) (v : V) (l : eviction_type)
  : eviction_type :=
  match l with
  | [] => []
  | n :: l' =>
      if decide (n.1 = it) then (n.1, (get0 n.2, v, get2 n.2)) :: l'
      else n :: store_value it v l'
  end.

Definition assign_value (it : iterator) (v : V) (l : eviction_type)
  : option eviction_type :=
  _ ← deref it l; Some (store_value it v l).
End entries.

Arguments entry_type : clear implicits.
Arguments node : clear implicits.
Arguments eviction_type : clear implicits.

(** ** The cache object: the members of [cache] and of its base classes
    [lru_eviction] / [mru_eviction] and [eviction_strategy]. *)

Section cache.
Context {K : Type} `{Countable K} {V : Type} `{size_calc V}.

Record cache := mk_cache {
  eviction_list : eviction_type K V;
  next_node : iterator;               (* the allocator of list nodes *)
  current_size : Z;
  max_size : Z;
  cache_map : gmap K iterator;
  _strong : bool }.

Definition with_list (l : eviction_type K V) (s : cache) : cache :=
  mk_cache l (next_node s) (current_size s) (max_size s) (cache_map s)
           (_strong s).
Definition with_next (n : iterator) (s : cache) : cache :=
  mk_cache (eviction_list s) n (current_size s) (max_size s) (cache_map s)
           (_strong s).
Definition with_current (n : Z) (s : cache) : cache :=
  mk_cache (eviction_list s) (next_node s) n (max_size s) (cache_map s)
           (_strong s).
Definition with_max (n : Z) (s : cache) : cache :=
  mk_cache (eviction_list s) (next_node s) (current_size s) n (cache_map s)
           (_strong s).
Definition with_map (m : gmap K iterator) (s : cache) : cache :=
  mk_cache (eviction_list s) (next_node s) (current_size s) (max_size s) m
           (_strong s).

(** [cache(_max_size, strong_assoc)] *)
Definition cache_new (_max_size : Z) (strong_assoc : bool) : cache :=
  mk_cache [] 0%nat 0 (to_size_t _max_size) ∅ strong_assoc.

(** *** The eviction strategy *)

(** [clear_()] *)
Definition clear_ (s : cache) : cache := with_list [] s.

(** [erase_map]: the callback given to [fit_]; the one the cache passes
    acts on its [cache_map]. *)
Definition erase_map : Type := K → gmap K iterator → gmap K iterator.

(** The guard of the loop of [fit_]. *)
Definition over_budget (s : cache) : bool :=
  bool_decide (0 < max_size s) && bool_decide (max_size s < current_size s).

(** One iteration of the loop of [fit_]: [back()], [pop_back()], the
    callback on the key, then the size. Undefined on an empty list. *)
Definition evict_back (c : erase_map) (s : cache) : option cache :=
  evicted ← last (eviction_list s);
  let s1 := with_list (removelast (eviction_list s)) s in
  let entryToEvict := get1 evicted.2 in
  let s2 := with_map (c (get0 evicted.2) (cache_map s1)) s1 in
  Some (with_current (to_size_t (current_size s2 - calc_size entryToEvict))
                     s2).

Fixpoint fit_fuel (fuel : nat) (c : erase_map) (s : cache)
  : option cache :=
  if over_budget s then
    match fuel with
    | O => None
    | S fuel' => s' ← evict_back c s; fit_fuel fuel' c s'
    end
  else Some s.

(** [fit_(c)], the same in both strategies. Every iteration pops a node,
    so one more iteration than there are nodes is never needed: the fuel
    does not run out, and [None] is the [back()] of an empty list
    ([fit_unfold] below). *)
Definition fit_ (c : erase_map) (s : cache) : option cache :=
  fit_fuel (S (length (eviction_list s))) c s.

(** [push_(e)]: [emplace_front] for LRU, [emplace_back] for MRU. *)
Definition push_ (E : eviction) (e : entry_type K V) (s : cache)
  : iterator * cache :=
  let it := next_node s in
  let l := match E with
           | lru_eviction => (it, e) :: eviction_list s
           | mru_eviction => eviction_list s ++ [(it, e)]
           end in
  (it, with_next (S it) (with_list l s)).

(** [remove_(it)] *)
Definition remove_ (it : iterator) (s : cache) : option cache :=
  l ← list_erase it (eviction_list s); Some (with_list l s).

(** [touch_(entry)]: to the front for LRU, to the back for MRU. *)
Definition touch_ (E : eviction) (entry : iterator) (s : cache)
  : option cache :=
  l ← match E with
      | lru_eviction => splice_begin entry (eviction_list s)
      | mru_eviction => splice_end entry (eviction_list s)
      end;
  Some (with_list l s).

(** *** The cache coordinator *)

(** [[this](key_type const& k){ cache_map.erase(k); }] and [_erase]. *)
Definition _erase : erase_map := λ k m, delete k m.

(** [touch(key)]: the iterator and whether the key was found. *)
Definition touch (E : eviction) (key : K) (s : cache)
  : option (iterator * bool * cache) :=
  match cache_map s !! key with
  | None => Some (0%nat, false, s)
  | Some existingEntry =>
      s' ← touch_ E existingEntry s; Some (existingEntry, true, s')
  end.

(** [remove(key, dirty)], the internal one. *)
Definition remove_dirty (key : K) (dirty : bool) (s : cache)
  : option (bool * cache) :=
  match cache_map s !! key with
  | Some cacheEntry =>
      e ← deref cacheEntry (eviction_list s);
      if dirty && negb (get2 e) then Some (false, s)
      else
        let s1 :=
          with_current (to_size_t (current_size s - calc_size (get1 e))) s in
        let s2 := with_map (delete key (cache_map s1)) s1 in
        s3 ← remove_ cacheEntry s2;
        Some (true, s3)
  | None => Some (true, s)
  end.

(** [add_] after its strong-association guard. *)
Definition add_insert (E : eviction) (key : K) (value : V) (dirty : bool)
    (s : cache) : option cache :=
  let s1 := with_current (to_size_t (current_size s + calc_size value)) s in
  s2 ← fit_ _erase s1;
  let '(it, s3) := push_ E (key, value, dirty) s2 in
  Some (with_map (<[key := it]> (cache_map s3)) s3).

(** [add_(key, value, dirty)] *)
Definition add_ (E : eviction) (key : K) (value : V) (dirty : bool)
    (s : cache) : option cache :=
  if _strong s then
    '(_, had, s') ← touch E key s;
    if negb had then Some s' else add_insert E key value dirty s'
  else add_insert E key value dirty s.

(** [add(key, value, dirty)] *)
Definition add (E : eviction) (key : K) (value : V) (dirty : bool)
    (s : cache) : option cache :=
  if _strong s then add_ E key value dirty s
  else
    '(removed, s') ← remove_dirty key dirty s;
    if negb removed then Some s' else add_ E key value dirty s'.

(** [merge(other)] (lines 113-124 of the source) is not part of the
    model: its parameter type [cache<key_type, mapped_type, hash_type>]
    takes [hash_type] for the eviction strategy, and its body reads the
    lock and the private eviction list of [other], so that no program can
    instantiate it. *)

(** [merge(key, value, dirty)] *)
Definition merge `{value_ops V} (E : eviction) (key : K) (value : V)
    (dirty : bool) (s : cache) : option cache :=
  if _strong s then add_ E key value dirty s
  else
    match cache_map s !! key with
    | None => add_ E key value dirty s
    | Some mapIt =>
        old_value ← get1 <$> deref mapIt (eviction_list s);
        let old_size := calc_size old_value in
        let merged := value_merge old_value value in
        l1 ← assign_value mapIt merged (eviction_list s);
        s1 ← touch_ E mapIt (with_list l1 s);
        let new_size := calc_size merged in
        '(l2, new_size) ←
          (if bool_decide (0 < max_size s1)
              && bool_decide (max_size s1 < new_size)
           then
             l ← assign_value mapIt (value_trim merged (max_size s1))
                              (eviction_list s1);
             Some (l, max_size s1)
           else Some (eviction_list s1, new_size));
        let s2 := with_list l2 s1 in
        let s3 :=
          if bool_decide (old_size < new_size) then
            with_current
              (to_size_t (current_size s2 + (new_size - old_size))) s2
          else if bool_decide (new_size < old_size) then
            with_current
              (to_size_t (current_size s2 - (old_size - new_size))) s2
          else s2 in
        fit_ _erase s3
    end.

(** [resize(_new_max)] *)
Definition resize (_new_max : Z) (s : cache) : option cache :=
  fit_ _erase (with_max (to_size_t _new_max) s).

(** [clear()] *)
Definition clear (s : cache) : cache :=
  with_current 0 (with_map ∅ (clear_ s)).

(** [get(key, ret, do_touch)]: the return code, [ret] afterwards, and
    the cache. *)
Definition get (E : eviction) (key : K) (ret : V) (do_touch : bool)
    (s : cache) : option (Z * V * cache) :=
  if do_touch then
    '(elemIt, had, s') ← touch E key s;
    if negb had then Some (-1, ret, s')
    else e ← deref elemIt (eviction_list s'); Some (0, get1 e, s')
  else
    match cache_map s !! key with
    | None => Some (-1, ret, s)
    | Some elemIt =>
        e ← deref elemIt (eviction_list s); Some (0, get1 e, s)
    end.

(** [get_all(func)]: [func(key, value)] for every element of [cache_map],
    in the iteration order of the map, which [std::unordered_map] leaves
    unspecified. [func] is the caller's visitor; it acts on the caller's
    state [A] and reads the value it is given. *)
Definition get_all {A : Type} (func : K → V → A → A) (s : cache) (a : A)
  : option A :=
  foldl (λ acc cur,
           a' ← acc;
           e ← deref cur.2 (eviction_list s);
           Some (func cur.1 (get1 e) a'))
        (Some a) (map_to_list (cache_map s)).

(** [remove(key)], the public one. *)
Definition remove (key : K) (s : cache) : option cache :=
  snd <$> remove_dirty key false s.

(** [exists(key)] *)
Definition exists_ (key : K) (s : cache) : bool :=
  bool_decide (is_Some (cache_map s !! key)).

(** [size()] and [empty()] *)
Definition size (s : cache) : Z := current_size s.
Definition empty (s : cache) : bool := bool_decide (0 = size s).

End cache.

Arguments cache K {_ _} V.

(** ** The invariants of the data model and the public interface as a
    transition system *)

Section invariants.
Context {K : Type} `{Countable K} {V : Type} `{size_calc V}.

(** The sum of the size calculator over the values of a list, in [Z]. *)
Definition total_size (l : eviction_type K V) : Z :=
  foldr (λ n acc, calc_size (get1 n.2) + acc) 0 l.

(** Index and eviction sequence are in bijection: [cache_map] sends [k]
    to [it] exactly when the node at [it] holds an entry of key [k]. *)
Definition index_ok (s : cache K V) : Prop :=
  ∀ k it, cache_map s !! k = Some it ↔
          ∃ v d, (it, (k, v, d)) ∈ eviction_list s.

Record wf (s : cache K V) : Prop := mk_wf {
  wf_nodup : NoDup (eviction_list s).*1;
  wf_fresh : ∀ it, it ∈ (eviction_list s).*1 → (it < next_node s)%nat;
  wf_index : index_ok s }.

(** [current_size] is the sum of the sizes of the live values, in
    [size_t] arithmetic... *)
Definition accounted (s : cache K V) : Prop :=
  current_size s = to_size_t (total_size (eviction_list s)).

(** ...and exactly. *)
Definition accounted_exactly (s : cache K V) : Prop :=
  current_size s = total_size (eviction_list s).

(** The same while [add_] holds [pending] units it has added to
    [current_size] for the entry it has yet to push. *)
Definition accounted_with (pending : Z) (s : cache K V) : Prop :=
  current_size s = to_size_t (total_size (eviction_list s) + pending).

Definition within_budget (s : cache K V) : Prop :=
  0 < max_size s → current_size s ≤ max_size s.

(** A cache in strong-association mode holds nothing. *)
Definition strong_empty (s : cache K V) : Prop :=
  _strong s = true → eviction_list s = [].

Definition invariant (s : cache K V) : Prop :=
  wf s ∧ accounted s ∧ strong_empty s.

(** What the loop of [fit_] leaves alone: it only pops nodes off the back
    and erases keys from the index. *)
Definition fit_frame (s s' : cache K V) : Prop :=
  max_size s' = max_size s ∧ _strong s' = _strong s ∧
  next_node s' = next_node s ∧
  (∃ evicted, eviction_list s = eviction_list s' ++ evicted) ∧
  cache_map s' ⊆ cache_map s.

(** The public operations. *)
Inductive operation :=
| op_add (key : K) (value : V) (dirty : bool)
| op_merge (key : K) (value : V) (dirty : bool)
| op_resize (_new_max : Z)
| op_clear
| op_get (key : K) (ret : V) (do_touch : bool)
| op_remove (key : K).

Definition run `{value_ops V} (E : eviction) (o : operation)
    (s : cache K V) : option (cache K V) :=
  match o with
  | op_add key value dirty => add E key value dirty s
  | op_merge key value dirty => merge E key value dirty s
  | op_resize _new_max => resize _new_max s
  | op_clear => Some (clear s)
  | op_get key ret do_touch => snd <$> get E key ret do_touch s
  | op_remove key => remove key s
  end.

(** The states of a cache object: those a constructor call followed by
    public operations that return can produce. *)
Inductive reachable `{value_ops V} (E : eviction) : cache K V → Prop :=
| reachable_new _max_size strong_assoc :
    reachable E (cache_new _max_size strong_assoc)
| reachable_run s o s' :
    reachable E s → run E o s = Some s' → reachable E s'.

(** The same, the sum of the live sizes never having left [size_t]. *)
Inductive reachable_exactly `{value_ops V} (E : eviction)
  : cache K V → Prop :=
| reachable_exactly_new _max_size strong_assoc :
    reachable_exactly E (cache_new _max_size strong_assoc)
| reachable_exactly_run s o s' :
    reachable_exactly E s → run E o s = Some s' →
    total_size (eviction_list s') < size_t_modulus →
    reachable_exactly E s'.

(** The capability asked of [trim]: "trimmed to fit exactly" the given
    number of units. *)
Definition trim_exact `{value_ops V} : Prop :=
  ∀ (v : V) n, 0 < n < calc_size v → calc_size (value_trim v n) = n.

(** [merge(key, value, dirty)] on a key that is present: whether the
    combined value is trimmed, the value left in the entry, the size
    accounted for it, and the cache handed to the loop of [fit_]. *)
Definition merge_trims `{value_ops V} (mx : Z) (old value : V) : bool :=
  bool_decide (0 < mx)
  && bool_decide (mx < calc_size (value_merge old value)).

Definition merged_value `{value_ops V} (mx : Z) (old value : V) : V :=
  if merge_trims mx old value then value_trim (value_merge old value) mx
  else value_merge old value.

Definition merged_size `{value_ops V} (mx : Z) (old value : V) : Z :=
  if merge_trims mx old value then mx
  else calc_size (value_merge old value).

Definition merge_combined `{value_ops V} (E : eviction) (it : iterator)
    (e : entry_type K V) (value : V) (s : cache K V) : cache K V :=
  let stored := (get0 e, merged_value (max_size s) (get1 e) value, get2 e) in
  let l := match E with
           | lru_eviction => (it, stored) :: unlink it (eviction_list s)
           | mru_eviction => unlink it (eviction_list s) ++ [(it, stored)]
           end in
  let old_size := calc_size (get1 e) in
  let new_size := merged_size (max_size s) (get1 e) value in
  let cur :=
    if bool_decide (old_size < new_size) then
      to_size_t (current_size s + (new_size - old_size))
    else if bool_decide (new_size < old_size) then
      to_size_t (current_size s - (old_size - new_size))
    else current_size s in
  mk_cache l (next_node s) cur (max_size s) (cache_map s) (_strong s).

(** The entry a key leads to: the index, then the node. *)
Definition entry_of (key : K) (s : cache K V) : option (entry_type K V) :=
  it ← cache_map s !! key; deref it (eviction_list s).

(** Whether a write with flag [dirty] is turned down by the entry held for
    its key, if any: the test [dirty && !std::get<2>( *cacheEntry )] of
    [remove(key, dirty)]. *)
Definition refuses (dirty : bool) (held : option (entry_type K V)) : bool :=
  match held with
  | Some e => dirty && negb (get2 e)
  | None => false
  end.
End invariants.

(** ** Value types of the test suite and of the examples *)

(** Strings measured by their length ([size_calc<std::string>] of the test
    suite), combined by appending and trimmed to a prefix. *)
Definition string_ops : value_ops string :=
  {| value_merge := String.append;
     value_trim := λ s n, String.substring 0 (Z.to_nat n) s |}.

(** Counters: a value counts for itself, counters combine by addition and a
    counter trimmed to [n] units is [n]. *)
Definition size_calc_counter : size_calc Z := λ v, v.

Definition counter_ops : value_ops Z :=
  {| value_merge := Z.add; value_trim := λ _ n, n |}.

(** ** The recency scenarios: keys [0..N-1] are inserted into a cache of
    capacity [N] whose entries count one unit each, key [0] is read with
    [get], then key [N] is inserted. *)

Section scenarios.
Context {V : Type}.
Local Instance scenario_size_calc : size_calc V := size_calc_unit.

Definition insert_keys (E : eviction) (vals : nat → V) (n : nat)
    (s : cache Z V) : option (cache Z V) :=
  foldl (λ acc i, s' ← acc; add E (Z.of_nat i) (vals i) false s')
        (Some s) (seq 0 n).

Definition recency_scenario (E : eviction) (vals : nat → V) (ret : V)
    (N : nat) : option (cache Z V) :=
  s1 ← insert_keys E vals N (cache_new (Z.of_nat N) false);
  '(_, _, s2) ← get E 0 ret true s1;
  add E (Z.of_nat N) (vals N) false s2.

(** The nodes of keys [0..n-1] in insertion order and the index of a
    cache holding exactly these. *)
Definition key_node (vals : nat → V) (i : nat) : node Z V :=
  (i, (Z.of_nat i, vals i, false)).

Fixpoint keys_index (n : nat) : gmap Z iterator :=
  match n with
  | O => ∅
  | S n' => <[Z.of_nat n' := n']> (keys_index n')
  end.

Definition keys_list (E : eviction) (vals : nat → V) (n : nat)
  : eviction_type Z V :=
  match E with
  | lru_eviction => reverse (key_node vals <$> seq 0 n)
  | mru_eviction => key_node vals <$> seq 0 n
  end.

(** The cache of capacity [N] after the insertion of keys [0..n-1]. *)
Definition filled (E : eviction) (vals : nat → V) (N n : nat) : cache Z V :=
  mk_cache (keys_list E vals n) n (Z.of_nat n) (Z.of_nat N) (keys_index n)
           false.

(** The eviction list of the full cache of capacity [S m] after [get(0)]:
    key [0] has moved to the front (LRU) or to the back (MRU). *)
Definition touched_list (E : eviction) (vals : nat → V) (m : nat)
  : eviction_type Z V :=
  match E with
  | lru_eviction => key_node vals 0 :: reverse (key_node vals <$> seq 1 m)
  | mru_eviction => (key_node vals <$> seq 1 m) ++ [key_node vals 0]
  end.
End scenarios.

(** ** Caches of the test suite and of the examples *)

(** The values of the test suite: [test_value + i]. *)
Definition test_values (i : nat) : Z := 15 + Z.of_nat i.

(** The loop of the test suite,
    [for (i = 0; i < n; ++i) { cache.add(i, test_value + i);
       EXPECT_EQ(0, cache.get(i, value)); EXPECT_EQ(test_value + i, value); }],
    failing when an expectation does. *)
Definition add_and_get (E : eviction) (n : nat) (s : cache Z Z)
  : option (cache Z Z) :=
  foldl (λ acc i,
           s1 ← acc;
           s2 ← add (H0:=size_calc_unit) E (Z.of_nat i) (test_values i) false
                    s1;
           '(rc, value, s3) ← get E (Z.of_nat i) 0 true s2;
           if bool_decide (rc = 0 ∧ value = test_values i) then Some s3
           else None)
        (Some s) (seq 0 n).

(** "Dirty Entries": the unbounded cache of integers after [add(0, 15)]. *)
Definition dirty_test_cache : cache Z Z :=
  mk_cache [(0%nat, (0, 15, false))] 1%nat 1 0 {[0 := 0%nat]} false.

(** "Customization": the cache of capacity 19 of strings measured by
    length, after [add(0, "0123456789")]. *)
Definition string_test_cache : cache Z string :=
  mk_cache [(0%nat, (0, "0123456789"%string, false))] 1%nat 10 19
           {[0 := 0%nat]} false.

(** A cache of capacity 10 of counters after [add(1, 5)], and after the
    further [add(2, 2^64 - 1)], which wraps [current_size] around. *)
Definition counter_cache : cache Z Z :=
  mk_cache [(0%nat, (1, 5, false))] 1%nat 5 10 {[1 := 0%nat]} false.

Definition counter_cache_wrapped : cache Z Z :=
  mk_cache [(1%nat, (2, 2 ^ 64 - 1, false)); (0%nat, (1, 5, false))] 2%nat 4
           10
           (<[2 := 1%nat]> {[1 := 0%nat]}) false.

(** The cache of capacity 19 after [add(0, "0123456789")] and
    [add(1, "abcdefg")], under either strategy. *)
Definition string_pair_cache (E : eviction) : cache Z string :=
  mk_cache
    match E with
    | lru_eviction => [(1%nat, (1, "abcdefg"%string, false));
                       (0%nat, (0, "0123456789"%string, false))]
    | mru_eviction => [(0%nat, (0, "0123456789"%string, false));
                       (1%nat, (1, "abcdefg"%string, false))]
    end
    2%nat 17 19 (<[1 := 1%nat]> {[0 := 0%nat]}) false.

(** * Properties *)

(** ** [size_t] arithmetic *)

Lemma to_size_t_range z : 0 ≤ to_size_t z < size_t_modulus.
Proof. unfold to_size_t, size_t_modulus. apply Z.mod_pos_bound. lia. Qed.

Lemma to_size_t_small z : 0 ≤ z < size_t_modulus → to_size_t z = z.
Proof. unfold to_size_t, size_t_modulus. intros. by apply Z.mod_small. Qed.

Lemma to_size_t_idemp z : to_size_t (to_size_t z) = to_size_t z.
Proof. apply to_size_t_small, to_size_t_range. Qed.

Lemma to_size_t_plus_l a b : to_size_t (to_size_t a + b) = to_size_t (a + b).
Proof. unfold to_size_t. by rewrite Zplus_mod_idemp_l. Qed.

Lemma to_size_t_minus_l a b : to_size_t (to_size_t a - b) = to_size_t (a - b).
Proof. unfold to_size_t. by rewrite Zminus_mod_idemp_l. Qed.

Lemma calc_size_range {V} `{size_calc V} (v : V) :
  0 ≤ calc_size v < size_t_modulus.
Proof. apply to_size_t_range. Qed.

(** ** The eviction list *)

Section list_facts.
Context {K V : Type}.
Implicit Types (l : eviction_type K V) (it : iterator) (e : entry_type K V).

Lemma deref_elem_of it l e : deref it l = Some e → (it, e) ∈ l.
Proof.
  induction l as [|[i e'] l IH]; simpl; [done|].
  case_decide; simplify_eq/=.
  - intros [= ->]. left.
  - intros ?. right. auto.
Qed.

Lemma deref_None it l : deref it l = None ↔ it ∉ l.*1.
Proof.
  induction l as [|[i e'] l IH]; simpl.
  - split; [intros _; apply not_elem_of_nil|done].
  - case_decide; simplify_eq/=.
    + split; [done|]. intros []. left.
    + rewrite IH not_elem_of_cons.
      split; [intros ?; split; [congruence|done]|by intros [_ ?]].
Qed.

Lemma elem_of_deref it l e : NoDup l.*1 → (it, e) ∈ l → deref it l = Some e.
Proof.
  induction l as [|[i e'] l IH]; simpl; [by intros _ ?%elem_of_nil|].
  intros [Hi Hl]%NoDup_cons [?|Hin]%elem_of_cons; simplify_eq/=.
  - by rewrite decide_True.
  - case_decide; simplify_eq/=; [|by auto].
    destruct Hi. apply (list_elem_of_fmap_2 fst) in Hin. done.
Qed.

Lemma unlink_perm it l e : deref it l = Some e → l ≡ₚ (it, e) :: unlink it l.
Proof.
  induction l as [|[i e'] l IH]; simpl; [done|].
  case_decide; simplify_eq/=.
  - by intros [= ->].
  - intros ?. rewrite {1}IH //. apply Permutation_swap.
Qed.

Lemma unlink_absent it l : it ∉ l.*1 → unlink it l = l.
Proof.
  induction l as [|[i e'] l IH]; simpl; [done|].
  rewrite not_elem_of_cons. intros [??].
  case_decide; simplify_eq/=. by rewrite IH.
Qed.

Lemma splice_begin_perm it l l' : splice_begin it l = Some l' → l ≡ₚ l'.
Proof.
  unfold splice_begin. destruct (deref it l) as [e|] eqn:He; [|done].
  intros [= <-]. by apply unlink_perm.
Qed.

Lemma splice_end_perm it l l' : splice_end it l = Some l' → l ≡ₚ l'.
Proof.
  unfold splice_end. destruct (deref it l) as [e|] eqn:He; [|done].
  intros [= <-]. etrans; [by apply unlink_perm|].
  apply Permutation_cons_append.
Qed.

Lemma deref_perm it l l' : NoDup l.*1 → l ≡ₚ l' → deref it l = deref it l'.
Proof.
  intros Hnd Hp. destruct (deref it l) as [e|] eqn:He.
  - symmetry. apply elem_of_deref; [by rewrite -Hp|].
    rewrite -Hp. by apply deref_elem_of.
  - symmetry. apply deref_None. rewrite -Hp. by apply deref_None.
Qed.

Lemma store_value_ids it v l : (store_value it v l).*1 = l.*1.
Proof.
  induction l as [|[i e'] l IH]; simpl; [done|].
  case_decide; csimpl; by rewrite ?IH.
Qed.

Lemma deref_store_value it it' v l :
  deref it' (store_value it v l) =
  if decide (it = it') then (λ e, (get0 e, v, get2 e)) <$> deref it l
  else deref it' l.
Proof.
  induction l as [|[i e'] l IH]; simpl; [by case_decide|].
  repeat (case_decide; simplify_eq/=); try done.
Qed.

Lemma unlink_store_value it v l :
  unlink it (store_value it v l) = unlink it l.
Proof.
  induction l as [|[i e'] l IH]; simpl; [done|].
  case_decide; simpl; [by rewrite decide_True|].
  rewrite decide_False //. by rewrite IH.
Qed.

Lemma last_removelast l n : last l = Some n → l = removelast l ++ [n].
Proof.
  intros [l' ->]%last_Some. by rewrite removelast_last.
Qed.

Lemma store_value_absent it v l : it ∉ l.*1 → store_value it v l = l.
Proof.
  induction l as [|[i e'] l IH]; simpl; [done|].
  rewrite not_elem_of_cons. intros [??].
  case_decide; simplify_eq/=. by rewrite IH.
Qed.

Lemma store_value_snoc it v l e :
  it ∉ l.*1 →
  store_value it v (l ++ [(it, e)]) = l ++ [(it, (get0 e, v, get2 e))].
Proof.
  induction l as [|[i e'] l IH]; simpl.
  - intros _. by rewrite decide_True.
  - rewrite not_elem_of_cons. intros [??].
    case_decide; simplify_eq/=. by rewrite IH.
Qed.

Lemma unlink_ids it l e :
  NoDup l.*1 → deref it l = Some e → it ∉ (unlink it l).*1.
Proof.
  intros Hnd He. rewrite (unlink_perm _ _ _ He) fmap_cons in Hnd.
  by apply NoDup_cons in Hnd as [? _].
Qed.

Lemma deref_snoc it l e :
  it ∉ l.*1 → deref it (l ++ [(it, e)]) = Some e.
Proof.
  induction l as [|[i e'] l IH]; simpl.
  - intros _. by rewrite decide_True.
  - rewrite not_elem_of_cons. intros [??].
    case_decide; simplify_eq/=. by rewrite IH.
Qed.

Lemma unlink_snoc it l e :
  it ∉ l.*1 → unlink it (l ++ [(it, e)]) = l.
Proof.
  induction l as [|[i e'] l IH]; simpl.
  - intros _. by rewrite decide_True.
  - rewrite not_elem_of_cons. intros [??].
    case_decide; simplify_eq/=. by rewrite IH.
Qed.
End list_facts.

(** ** The loop of [fit_] *)

Section fit_facts.
Context {K : Type} `{Countable K} {V : Type} `{size_calc V}.
Implicit Types (s : cache K V) (c : erase_map (K:=K)) (l : eviction_type K V).

Lemma total_size_app l1 l2 :
  total_size (l1 ++ l2) = total_size l1 + total_size l2.
Proof. induction l1 as [|n l1 IH]; simpl; [done|]. rewrite IH. lia. Qed.

Lemma total_size_perm l1 l2 : l1 ≡ₚ l2 → total_size l1 = total_size l2.
Proof.
  induction 1 as [|n l1 l2 _ IH|n1 n2 l1|l1 l2 l3 _ IH1 _ IH2]; simpl;
    [done|by rewrite IH|lia|congruence].
Qed.

Lemma total_size_nonneg l : 0 ≤ total_size l.
Proof.
  induction l as [|n l IH]; simpl; [done|].
  pose proof (calc_size_range (get1 n.2)). lia.
Qed.

Lemma total_size_elem_of l n : n ∈ l → calc_size (get1 n.2) ≤ total_size l.
Proof.
  induction 1 as [n l|n n' l _ IH]; simpl.
  - pose proof (total_size_nonneg l). lia.
  - pose proof (calc_size_range (get1 n'.2)). lia.
Qed.

(** An iteration pops the last node [n], erases its key through the
    callback and subtracts its size. *)
Lemma evict_back_snoc c s l n :
  eviction_list s = l ++ [n] →
  evict_back c s =
  Some (mk_cache l (next_node s)
                 (to_size_t (current_size s - calc_size (get1 n.2)))
                 (max_size s) (c (get0 n.2) (cache_map s)) (_strong s)).
Proof.
  intros Hl. unfold evict_back. by rewrite Hl last_snoc /= removelast_last.
Qed.

(** It is undefined exactly on an empty list. *)
Lemma evict_back_None c s : evict_back c s = None ↔ eviction_list s = [].
Proof.
  unfold evict_back. destruct (eviction_list s) as [|n l] using rev_ind.
  - done.
  - rewrite last_snoc /=. split; [done|]. by intros ?%app_nil_r_inv.
Qed.

Lemma evict_back_length c s s' :
  evict_back c s = Some s' →
  length (eviction_list s) = S (length (eviction_list s')).
Proof.
  unfold evict_back.
  destruct (last (eviction_list s)) as [n|] eqn:Hl; simpl; [|done].
  intros [= <-]. simpl. apply last_removelast in Hl.
  rewrite {1}Hl length_app /=. lia.
Qed.

Lemma fit_fuel_enough c fuel s :
  (length (eviction_list s) < fuel)%nat → fit_fuel fuel c s = fit_ c s.
Proof.
  unfold fit_. revert s. induction fuel as [|fuel IH]; intros s Hlen; [lia|].
  simpl. destruct (over_budget s); [|done].
  destruct (evict_back c s) as [s'|] eqn:Hs'; simpl; [|done].
  apply evict_back_length in Hs' as Hlen'.
  rewrite IH; [by rewrite Hlen'|lia].
Qed.

(** The loop, unfolded once: [None] is only ever the [back()] of an empty
    list. *)
Lemma fit_unfold c s :
  fit_ c s =
  if over_budget s then s' ← evict_back c s; fit_ c s' else Some s.
Proof.
  unfold fit_ at 1. simpl. destruct (over_budget s); [|done].
  destruct (evict_back c s) as [s'|] eqn:Hs'; simpl; [|done].
  apply fit_fuel_enough. apply evict_back_length in Hs'. lia.
Qed.

(** Whatever every iteration preserves holds when the loop is left, and
    the guard is then false. *)
Lemma fit_invariant (P : cache K V → Prop) c s s' :
  (∀ s1 s2, P s1 → over_budget s1 = true → evict_back c s1 = Some s2 →
            P s2) →
  P s → fit_ c s = Some s' → P s' ∧ over_budget s' = false.
Proof.
  intros Hstep. unfold fit_.
  generalize (S (length (eviction_list s))). intros fuel. revert s.
  induction fuel as [|fuel IH]; intros s HP; simpl.
  - destruct (over_budget s) eqn:Hob; [done|]. by intros [= <-].
  - destruct (over_budget s) eqn:Hob; [|by intros [= <-]].
    destruct (evict_back c s) as [s1|] eqn:Hs1; simpl; [|done].
    apply IH. by eapply Hstep.
Qed.

(** The loop returns when the guard is false on the empty list at the
    latest. *)
Lemma fit_is_Some (P : cache K V → Prop) c s :
  (∀ s1 s2, P s1 → over_budget s1 = true → evict_back c s1 = Some s2 →
            P s2) →
  (∀ s1, P s1 → eviction_list s1 = [] → over_budget s1 = false) →
  P s → is_Some (fit_ c s).
Proof.
  intros Hstep Hnil.
  remember (length (eviction_list s)) as n eqn:Hn. revert s Hn.
  induction n as [|n IH]; intros s Hn HP; rewrite fit_unfold.
  - by rewrite (Hnil s HP (nil_length_inv _ (eq_sym Hn))).
  - destruct (over_budget s) eqn:Hob; [|done].
    destruct (evict_back c s) as [s1|] eqn:Hs1; simpl.
    + apply IH; [|by eapply Hstep].
      apply evict_back_length in Hs1. lia.
    + apply evict_back_None in Hs1. by rewrite Hs1 in Hn.
Qed.

(** On an empty list with the guard true the loop is undefined. *)
Lemma fit_empty_over_budget c s :
  eviction_list s = [] → over_budget s = true → fit_ c s = None.
Proof.
  intros Hnil Hob. rewrite fit_unfold Hob.
  by rewrite (proj2 (evict_back_None c s) Hnil).
Qed.
End fit_facts.

(** ** The invariants are preserved *)

Section preservation.
Context {K : Type} `{Countable K} {V : Type} `{size_calc V}.
Implicit Types (s : cache K V) (l : eviction_type K V) (E : eviction).

Lemma accounted_with_0 s : accounted_with 0 s ↔ accounted s.
Proof. unfold accounted_with, accounted. by rewrite Z.add_0_r. Qed.

Lemma wf_perm s l :
  wf s → eviction_list s ≡ₚ l → wf (with_list l s).
Proof.
  intros [Hnd Hfr Hix] Hp. split; simpl.
  - by rewrite -Hp.
  - intros it. rewrite -Hp. apply Hfr.
  - intros k it. rewrite /= (Hix k it). by setoid_rewrite Hp.
Qed.

Lemma wf_key_unique s it1 it2 k v1 d1 v2 d2 :
  wf s → (it1, (k, v1, d1)) ∈ eviction_list s →
  (it2, (k, v2, d2)) ∈ eviction_list s → it1 = it2.
Proof.
  intros [_ _ Hix] H1 H2.
  assert (cache_map s !! k = Some it1) as E1 by (apply Hix; eauto).
  assert (cache_map s !! k = Some it2) as E2 by (apply Hix; eauto).
  congruence.
Qed.

(** Unlinking a node and erasing its key from the index. *)
Lemma wf_drop_node s n l cur mx :
  wf s → eviction_list s ≡ₚ n :: l →
  wf (mk_cache l (next_node s) cur mx (delete (get0 n.2) (cache_map s))
               (_strong s)).
Proof.
  intros Hwf Hp. destruct n as [itn [[kn vn] dn]].
  pose proof Hwf as [Hnd Hfr Hix].
  rewrite Hp fmap_cons /= in Hnd. apply NoDup_cons in Hnd as [Hitn Hnd].
  split; simpl.
  - done.
  - intros it Hit. apply Hfr. rewrite Hp fmap_cons. by right.
  - intros k it. unfold get0; simpl.
    rewrite lookup_delete_Some (Hix k it).
    setoid_rewrite Hp. setoid_rewrite elem_of_cons.
    split.
    + intros [Hne (v & d & [Heq|Hin])]; [by simplify_eq|by eauto].
    + intros (v & d & Hin). split; [|by eauto].
      intros <-. apply Hitn.
      assert (itn = it) as ->.
      { eapply (wf_key_unique s); [done|..]; rewrite Hp;
          [by left|by right]. }
      by apply (list_elem_of_fmap_2 fst) in Hin.
Qed.

Lemma evict_back_inv (c : erase_map) s s' :
  evict_back c s = Some s' →
  ∃ l n, eviction_list s = l ++ [n] ∧
    s' = mk_cache l (next_node s)
           (to_size_t (current_size s - calc_size (get1 n.2)))
           (max_size s) (c (get0 n.2) (cache_map s)) (_strong s).
Proof.
  intros Hs'. destruct (last (eviction_list s)) as [n|] eqn:Hl.
  - apply last_removelast in Hl. exists (removelast (eviction_list s)), n.
    split; [done|]. rewrite (evict_back_snoc _ _ _ _ Hl) in Hs'. congruence.
  - apply last_None in Hl. by apply (evict_back_None c) in Hl; congruence.
Qed.

Lemma evict_back_wf s s' :
  wf s → evict_back _erase s = Some s' → wf s'.
Proof.
  intros Hwf (l & n & Hl & ->)%evict_back_inv.
  apply wf_drop_node; [done|]. rewrite Hl. symmetry.
  apply Permutation_cons_append.
Qed.

Lemma evict_back_accounted_with (c : erase_map) pending s s' :
  accounted_with pending s → evict_back c s = Some s' →
  accounted_with pending s'.
Proof.
  unfold accounted_with. intros Hacc (l & n & Hl & ->)%evict_back_inv.
  simpl. rewrite Hacc Hl total_size_app /= to_size_t_minus_l.
  f_equal. lia.
Qed.

Lemma fit_erase_frame s s' : fit_ _erase s = Some s' → fit_frame s s'.
Proof.
  intros Hfit.
  apply (fit_invariant (fit_frame s)) in Hfit as [? _]; [done| |].
  - intros s1 s2 (Hmax & Hstr & Hnext & [ev Hev] & Hsub) _
      (l & n & Hl & ->)%evict_back_inv.
    repeat split; simpl; try done.
    + exists (n :: ev). by rewrite Hev Hl -assoc.
    + etrans; [|done]. apply delete_subseteq.
  - repeat split; try done. exists []. by rewrite app_nil_r.
Qed.

Lemma fit_erase_wf s s' : wf s → fit_ _erase s = Some s' → wf s'.
Proof.
  intros Hwf Hfit.
  apply (fit_invariant wf) in Hfit as [? _]; [done| |done].
  intros s1 s2 ? _. by apply evict_back_wf.
Qed.

Lemma fit_accounted_with (c : erase_map) pending s s' :
  accounted_with pending s → fit_ c s = Some s' → accounted_with pending s'.
Proof.
  intros Hacc Hfit.
  apply (fit_invariant (accounted_with pending)) in Hfit as [? _];
    [done| |done].
  intros s1 s2 ? _. by apply evict_back_accounted_with.
Qed.

Lemma fit_within_budget (c : erase_map) s s' :
  fit_ c s = Some s' → within_budget s'.
Proof.
  intros Hfit.
  apply (fit_invariant (λ _, True)) in Hfit as [_ Hob]; [|done..].
  unfold over_budget in Hob. intros Hmax.
  rewrite bool_decide_eq_true_2 //= in Hob.
  apply bool_decide_eq_false in Hob. lia.
Qed.

(** With the books in order the loop never reaches the [back()] of an
    empty list, provided what is still to be pushed fits. *)
Lemma fit_accounted_is_Some (c : erase_map) pending s :
  accounted_with pending s →
  (0 < max_size s → to_size_t pending ≤ max_size s) →
  is_Some (fit_ c s).
Proof.
  intros Hacc Hfits.
  apply (fit_is_Some (λ s1, accounted_with pending s1 ∧
                            max_size s1 = max_size s)); [| |done].
  - intros s1 s2 [? Hmax] _ Hev. split.
    + by eapply evict_back_accounted_with.
    + apply evict_back_inv in Hev as (l & n & _ & ->). done.
  - intros s1 [Hacc1 Hmax] Hnil. unfold over_budget.
    rewrite Hacc1 Hnil /= Hmax.
    destruct (decide (0 < max_size s)) as [Hpos|Hpos].
    + rewrite bool_decide_eq_true_2 //=. apply bool_decide_eq_false.
      specialize (Hfits Hpos). rewrite Z.add_0_l. lia.
    + by rewrite bool_decide_eq_false_2.
Qed.
End preservation.

Section operations.
Context {K : Type} `{Countable K} {V : Type} `{size_calc V}.
Implicit Types (s : cache K V) (l : eviction_type K V) (E : eviction).

Lemma wf_with_current n s : wf s → wf (with_current n s).
Proof. by intros []. Qed.

Lemma wf_with_max n s : wf s → wf (with_max n s).
Proof. by intros []. Qed.

Lemma wf_lookup_deref s k it :
  wf s → cache_map s !! k = Some it →
  ∃ v d, deref it (eviction_list s) = Some (k, v, d).
Proof.
  intros [Hnd _ Hix] (v & d & Hin)%Hix. exists v, d. by apply elem_of_deref.
Qed.

Lemma wf_deref_key s k it e :
  wf s → cache_map s !! k = Some it → deref it (eviction_list s) = Some e →
  get0 e = k.
Proof.
  intros Hwf Hk He. destruct (wf_lookup_deref s k it) as (v & d & He');
    [done..|]. by simplify_eq.
Qed.

(** *** [remove(key, dirty)] *)

Lemma remove_dirty_inv key dirty s b s' :
  remove_dirty key dirty s = Some (b, s') →
  (cache_map s !! key = None ∧ b = true ∧ s' = s) ∨
  (∃ it e, cache_map s !! key = Some it ∧
     deref it (eviction_list s) = Some e ∧
     if dirty && negb (get2 e) then b = false ∧ s' = s
     else b = true ∧
          s' = mk_cache (unlink it (eviction_list s)) (next_node s)
                 (to_size_t (current_size s - calc_size (get1 e)))
                 (max_size s) (delete key (cache_map s)) (_strong s)).
Proof.
  unfold remove_dirty.
  destruct (cache_map s !! key) as [it|] eqn:Hk; [|by intros [= <- <-]; left].
  destruct (deref it (eviction_list s)) as [e|] eqn:He; simpl; [|done].
  intros Hr. right. exists it, e. do 2 (split; [done|]).
  destruct (dirty && negb (get2 e)); [by simplify_eq|].
  unfold remove_, list_erase in Hr. simpl in Hr. rewrite He /= in Hr.
  by simplify_eq.
Qed.

Lemma remove_dirty_frame key dirty s b s' :
  remove_dirty key dirty s = Some (b, s') →
  max_size s' = max_size s ∧ _strong s' = _strong s ∧
  next_node s' = next_node s ∧ (b = true → cache_map s' !! key = None).
Proof.
  intros [(? & -> & ->)|(it & e & Hk & He & Hr)]%remove_dirty_inv; [done|].
  destruct (dirty && negb (get2 e)); destruct Hr as [-> ->]; [done|].
  repeat split. intros _. apply lookup_delete_eq.
Qed.

Lemma remove_dirty_wf key dirty s b s' :
  wf s → remove_dirty key dirty s = Some (b, s') → wf s'.
Proof.
  intros Hwf [(? & -> & ->)|(it & e & Hk & He & Hr)]%remove_dirty_inv;
    [done|].
  destruct (dirty && negb (get2 e)); destruct Hr as [-> ->]; [done|].
  rewrite -(wf_deref_key s key it e) //.
  apply (wf_drop_node s (it, e)); [done|]. by apply unlink_perm.
Qed.

Lemma remove_dirty_accounted key dirty s b s' :
  accounted s → remove_dirty key dirty s = Some (b, s') → accounted s'.
Proof.
  unfold accounted.
  intros Hacc [(? & -> & ->)|(it & e & Hk & He & Hr)]%remove_dirty_inv;
    [done|].
  destruct (dirty && negb (get2 e)); destruct Hr as [-> ->]; [done|].
  simpl. rewrite Hacc to_size_t_minus_l.
  rewrite (total_size_perm _ _ (unlink_perm _ _ _ He)) /=. f_equal. lia.
Qed.

Lemma accounted_fits s :
  accounted s → total_size (eviction_list s) < size_t_modulus →
  accounted_exactly s.
Proof.
  unfold accounted, accounted_exactly. intros -> ?.
  apply to_size_t_small. split; [apply total_size_nonneg|done].
Qed.

(** With exact books the subtraction does not wrap around. *)
Lemma remove_dirty_no_wrap key dirty s b s' :
  accounted s → total_size (eviction_list s) < size_t_modulus →
  remove_dirty key dirty s = Some (b, s') →
  current_size s' ≤ current_size s.
Proof.
  intros Hacc Hfit [(? & -> & ->)|(it & e & Hk & He & Hr)]%remove_dirty_inv;
    [done|].
  destruct (dirty && negb (get2 e)); destruct Hr as [-> ->]; [done|].
  simpl. rewrite (accounted_fits s) //.
  rewrite (total_size_perm _ _ (unlink_perm _ _ _ He)) /= in Hfit |- *.
  pose proof (calc_size_range (get1 e)).
  pose proof (total_size_nonneg (unlink it (eviction_list s))).
  rewrite to_size_t_small; lia.
Qed.

(** *** [push_] and [add_] *)

(** Linking a new node and entering its key in the index. *)
Lemma wf_add_node s l k v d cur mx :
  wf s → cache_map s !! k = None →
  l ≡ₚ (next_node s, (k, v, d)) :: eviction_list s →
  wf (mk_cache l (S (next_node s)) cur mx
               (<[k := next_node s]> (cache_map s)) (_strong s)).
Proof.
  intros [Hnd Hfr Hix] Hk Hp.
  assert (next_node s ∉ (eviction_list s).*1) as Hnew.
  { intros ?%Hfr. lia. }
  split; simpl.
  - rewrite Hp fmap_cons. by apply NoDup_cons.
  - intros it. rewrite Hp fmap_cons /=.
    intros [->|?%Hfr]%elem_of_cons; lia.
  - intros k' it. simpl. setoid_rewrite Hp. setoid_rewrite elem_of_cons.
    destruct (decide (k = k')) as [<-|Hne].
    + rewrite lookup_insert_eq. split.
      * intros [= <-]. by eauto.
      * intros (v' & d' & [?|Hin]); [by simplify_eq|].
        assert (cache_map s !! k = Some it) by (apply Hix; eauto).
        congruence.
    + rewrite lookup_insert_ne // (Hix k' it). split.
      * intros (v' & d' & Hin). eauto.
      * intros (v' & d' & [?|Hin]); [by simplify_eq|eauto].
Qed.

Lemma wf_push E s k v d :
  wf s → cache_map s !! k = None →
  wf (with_map (<[k := (push_ E (k, v, d) s).1]>
                  (cache_map (push_ E (k, v, d) s).2))
               (push_ E (k, v, d) s).2).
Proof.
  intros Hwf Hk. apply (wf_add_node s _ k v d); [done..|].
  destruct E; [done|]. symmetry. apply Permutation_cons_append.
Qed.

Lemma add_insert_inv E key value dirty s s' :
  add_insert E key value dirty s = Some s' →
  ∃ s2,
    fit_ _erase
      (with_current (to_size_t (current_size s + calc_size value)) s)
    = Some s2 ∧
    s' = with_map (<[key := (push_ E (key, value, dirty) s2).1]>
                     (cache_map (push_ E (key, value, dirty) s2).2))
                  (push_ E (key, value, dirty) s2).2.
Proof.
  unfold add_insert.
  destruct (fit_ _ _) as [s2|]; simpl; [|done].
  intros [= <-]. by exists s2.
Qed.

Lemma add_insert_wf E key value dirty s s' :
  wf s → cache_map s !! key = None →
  add_insert E key value dirty s = Some s' → wf s'.
Proof.
  intros Hwf Hk (s2 & Hfit & ->)%add_insert_inv.
  apply wf_push.
  - eapply fit_erase_wf; [|done]. by apply wf_with_current.
  - apply fit_erase_frame in Hfit as (_ & _ & _ & _ & Hsub).
    by eapply lookup_weaken_None.
Qed.

Lemma add_insert_accounted E key value dirty s s' :
  accounted s → add_insert E key value dirty s = Some s' → accounted s'.
Proof.
  intros Hacc (s2 & Hfit & ->)%add_insert_inv.
  apply (fit_accounted_with _ (calc_size value)) in Hfit; last first.
  { unfold accounted_with. simpl. by rewrite Hacc to_size_t_plus_l. }
  unfold accounted, accounted_with in *. simpl. rewrite Hfit. f_equal.
  destruct E; rewrite ?total_size_app /= /get1 /=; lia.
Qed.

Lemma add_insert_within_budget E key value dirty s s' :
  add_insert E key value dirty s = Some s' → within_budget s'.
Proof.
  intros (s2 & Hfit & ->)%add_insert_inv.
  by apply fit_within_budget in Hfit.
Qed.

Lemma add_insert_frame E key value dirty s s' :
  add_insert E key value dirty s = Some s' →
  max_size s' = max_size s ∧ _strong s' = _strong s.
Proof.
  intros (s2 & Hfit & ->)%add_insert_inv.
  by apply fit_erase_frame in Hfit as (? & ? & _).
Qed.

(** The entry is pushed after the loop of [fit_]: whatever was evicted,
    it is in the cache when [add_] returns. *)
Lemma add_insert_lookup E key value dirty s s' :
  wf s → add_insert E key value dirty s = Some s' →
  ∃ it, cache_map s' !! key = Some it ∧
        deref it (eviction_list s') = Some (key, value, dirty).
Proof.
  intros Hwf (s2 & Hfit & ->)%add_insert_inv.
  exists (next_node s2). simpl. split; [apply lookup_insert_eq|].
  destruct E; simpl; [by rewrite decide_True|].
  apply fit_erase_wf in Hfit as [Hnd Hfr _]; [|by apply wf_with_current].
  apply elem_of_deref.
  - rewrite fmap_app /=. apply NoDup_app. split_and!; [done| |apply NoDup_singleton].
    intros it ?%Hfr ->%list_elem_of_singleton. lia.
  - apply elem_of_app. right. by left.
Qed.

Lemma add_insert_is_Some E key value dirty s :
  accounted s → (0 < max_size s → calc_size value ≤ max_size s) →
  is_Some (add_insert E key value dirty s).
Proof.
  intros Hacc Hfits. unfold add_insert.
  destruct (fit_accounted_is_Some _erase (calc_size value)
    (with_current (to_size_t (current_size s + calc_size value)) s))
    as [s2 ->]; simpl; [| |done].
  - unfold accounted_with. simpl. by rewrite Hacc to_size_t_plus_l.
  - intros ?. unfold calc_size. rewrite to_size_t_idemp. by apply Hfits.
Qed.
End operations.

Section touch_add.
Context {K : Type} `{Countable K} {V : Type} `{size_calc V}.
Implicit Types (s : cache K V) (l : eviction_type K V) (E : eviction).

(** *** [touch_] and [touch] *)

Lemma touch__inv E it s s' :
  touch_ E it s = Some s' →
  ∃ e, deref it (eviction_list s) = Some e ∧
    s' = with_list
           match E with
           | lru_eviction => (it, e) :: unlink it (eviction_list s)
           | mru_eviction => unlink it (eviction_list s) ++ [(it, e)]
           end s.
Proof.
  unfold touch_, splice_begin, splice_end.
  destruct (deref it (eviction_list s)) as [e|] eqn:He; [|by destruct E].
  intros Hs'. exists e. split; [done|]. destruct E; by simplify_eq/=.
Qed.

Lemma touch__perm E it s s' :
  touch_ E it s = Some s' →
  ∃ l, s' = with_list l s ∧ eviction_list s ≡ₚ l.
Proof.
  intros (e & He & ->)%touch__inv. eexists. split; [done|].
  etrans; [by apply unlink_perm|].
  destruct E; [done|]. apply Permutation_cons_append.
Qed.

Lemma touch__deref E it it' s s' :
  NoDup (eviction_list s).*1 → touch_ E it s = Some s' →
  deref it' (eviction_list s') = deref it' (eviction_list s).
Proof.
  intros Hnd (l & -> & Hp)%touch__perm. simpl. symmetry.
  by apply deref_perm.
Qed.

Lemma touch__wf E it s s' : wf s → touch_ E it s = Some s' → wf s'.
Proof. intros Hwf (l & -> & Hp)%touch__perm. by apply wf_perm. Qed.

Lemma touch__accounted E it s s' :
  accounted s → touch_ E it s = Some s' → accounted s'.
Proof.
  unfold accounted. intros Hacc (l & -> & Hp)%touch__perm. simpl.
  by rewrite -(total_size_perm _ _ Hp).
Qed.

Lemma touch__is_Some E it s :
  is_Some (deref it (eviction_list s)) → is_Some (touch_ E it s).
Proof.
  intros [e He]. unfold touch_, splice_begin, splice_end.
  rewrite He. by destruct E.
Qed.

Lemma touch_inv E key s it had s' :
  touch E key s = Some (it, had, s') →
  (cache_map s !! key = None ∧ had = false ∧ s' = s) ∨
  (cache_map s !! key = Some it ∧ had = true ∧ touch_ E it s = Some s').
Proof.
  unfold touch. destruct (cache_map s !! key) as [it'|]; [|intros ?; left; by simplify_eq].
  destruct (touch_ E it' s) as [s1|] eqn:Hs1; simpl; [|done].
  intros ?. right. by simplify_eq.
Qed.

(** *** [get] *)

Lemma get_inv E key ret do_touch s rc ret' s' :
  get E key ret do_touch s = Some (rc, ret', s') →
  (cache_map s !! key = None ∧ rc = -1 ∧ ret' = ret ∧ s' = s) ∨
  (∃ it e, cache_map s !! key = Some it ∧ rc = 0 ∧ ret' = get1 e ∧
     if do_touch
     then touch_ E it s = Some s' ∧ deref it (eviction_list s') = Some e
     else s' = s ∧ deref it (eviction_list s) = Some e).
Proof.
  unfold get. destruct do_touch.
  - destruct (touch E key s) as [[[it had] s1]|] eqn:Ht; simpl; [|done].
    apply touch_inv in Ht as [(? & -> & ->)|(? & -> & ?)]; simpl.
    + intros ?. left. by simplify_eq.
    + destruct (deref it (eviction_list s1)) as [e|] eqn:He; simpl; [|done].
      intros ?. right. exists it, e. by simplify_eq.
  - destruct (cache_map s !! key) as [it|]; [|intros ?; left; by simplify_eq].
    destruct (deref it (eviction_list s)) as [e|] eqn:He; simpl; [|done].
    intros ?. right. exists it, e. by simplify_eq.
Qed.

(** A key of the index is found, with the value of its entry. *)
Lemma get_found E key ret do_touch s it e :
  NoDup (eviction_list s).*1 →
  cache_map s !! key = Some it → deref it (eviction_list s) = Some e →
  ∃ s', get E key ret do_touch s = Some (0, get1 e, s').
Proof.
  intros Hnd Hk He. unfold get, touch. rewrite Hk. destruct do_touch.
  - destruct (touch__is_Some E it s) as [s' Hs']; [by eauto|].
    rewrite Hs' /=. rewrite (touch__deref E it it s s') // He /=. by eauto.
  - rewrite He /=. by eauto.
Qed.

Lemma get_not_found E key ret do_touch s :
  cache_map s !! key = None →
  get E key ret do_touch s = Some (-1, ret, s).
Proof. intros Hk. unfold get, touch. rewrite Hk. by destruct do_touch. Qed.

(** *** [add_] and [add] *)

Lemma add__strong_absent E key value dirty s :
  _strong s = true → cache_map s !! key = None →
  add_ E key value dirty s = Some s.
Proof. intros Hs Hk. unfold add_, touch. by rewrite Hs Hk. Qed.

Lemma add_strong_absent E key value dirty s :
  _strong s = true → cache_map s !! key = None →
  add E key value dirty s = Some s.
Proof.
  intros Hs Hk. unfold add. rewrite Hs. by apply add__strong_absent.
Qed.

Lemma add_weak_inv E key value dirty s s' :
  _strong s = false → add E key value dirty s = Some s' →
  (remove_dirty key dirty s = Some (false, s) ∧ s' = s) ∨
  (∃ s1, remove_dirty key dirty s = Some (true, s1) ∧
         add_insert E key value dirty s1 = Some s').
Proof.
  intros Hs. unfold add. rewrite Hs.
  destruct (remove_dirty key dirty s) as [[[] s1]|] eqn:Hr; simpl; [| |done].
  - apply remove_dirty_frame in Hr as Hfr. destruct Hfr as (_ & Hs1 & _).
    unfold add_. rewrite Hs1 Hs. intros ?. right. by exists s1.
  - intros [= <-]. left.
    apply remove_dirty_inv in Hr as Hi.
    destruct Hi as [(_ & ? & _)|(it & e & _ & _ & Hi)]; [done|].
    destruct (dirty && negb (get2 e)); destruct Hi as [? ->]; done.
Qed.

Lemma add_strong_inv E key value dirty s s' :
  _strong s = true → add E key value dirty s = Some s' →
  (cache_map s !! key = None ∧ s' = s) ∨
  (∃ it s1, cache_map s !! key = Some it ∧ touch_ E it s = Some s1 ∧
            add_insert E key value dirty s1 = Some s').
Proof.
  intros Hs. unfold add, add_. rewrite Hs.
  destruct (touch E key s) as [[[it had] s1]|] eqn:Ht; simpl; [|done].
  apply touch_inv in Ht as [(? & -> & ->)|(? & -> & ?)]; simpl.
  - intros [= <-]. by left.
  - intros ?. right. by exists it, s1.
Qed.
End touch_add.

Section merge_facts.
Context {K : Type} `{Countable K} {V : Type} `{size_calc V} `{value_ops V}.
Implicit Types (s : cache K V) (l : eviction_type K V) (E : eviction).

Lemma merged_size_eq mx (old value : V) :
  trim_exact → calc_size (merged_value mx old value) = merged_size mx old value.
Proof.
  intros Htrim. unfold merged_value, merged_size, merge_trims.
  destruct (bool_decide (0 < mx)) eqn:H0mx; simpl; [|done].
  destruct (bool_decide (mx < _)) eqn:Hmx; simpl; [|done].
  apply bool_decide_eq_true in H0mx, Hmx. by apply Htrim.
Qed.

Lemma merged_size_fits mx (old value : V) :
  0 < mx → merged_size mx old value ≤ mx.
Proof.
  intros Hpos. unfold merged_size, merge_trims.
  rewrite bool_decide_eq_true_2 //=. case_bool_decide; lia.
Qed.

(** [merge] on a key that is present combines, touches, trims, adjusts
    the size and runs the loop of [fit_]. *)
Lemma assign_value_Some it v l (e : entry_type K V) :
  deref it l = Some e → assign_value it v l = Some (store_value it v l).
Proof. intros He. unfold assign_value. by rewrite He. Qed.

Lemma touch__Some E it s (e : entry_type K V) :
  deref it (eviction_list s) = Some e →
  touch_ E it s =
  Some (with_list
          match E with
          | lru_eviction => (it, e) :: unlink it (eviction_list s)
          | mru_eviction => unlink it (eviction_list s) ++ [(it, e)]
          end s).
Proof.
  intros He. unfold touch_, splice_begin, splice_end. rewrite He.
  by destruct E.
Qed.

Lemma merge_present E key value dirty s it e :
  _strong s = false → cache_map s !! key = Some it →
  NoDup (eviction_list s).*1 → deref it (eviction_list s) = Some e →
  merge E key value dirty s = fit_ _erase (merge_combined E it e value s).
Proof.
  intros Hs Hk Hnd He. unfold merge. rewrite Hs Hk /= He /=.
  rewrite (assign_value_Some _ _ _ e) //=.
  set (e1 := (get0 e, value_merge (get1 e) value, get2 e)).
  rewrite (touch__Some E it _ e1) /=; last first.
  { by rewrite deref_store_value decide_True // He. }
  rewrite unlink_store_value.
  pose proof (unlink_ids _ _ _ Hnd He) as Hit.
  unfold merge_combined, merged_value, merged_size, merge_trims.
  destruct (bool_decide (0 < max_size s) && _) eqn:Htr; simpl.
  2: { f_equal. repeat case_bool_decide; by destruct E. }
  destruct E; simpl.
  - rewrite (assign_value_Some _ _ _ e1) /=; [|by rewrite decide_True].
    rewrite decide_True //. f_equal. by repeat case_bool_decide.
  - rewrite (assign_value_Some _ _ _ e1) /=; [|by rewrite deref_snoc].
    rewrite store_value_snoc //. f_equal. by repeat case_bool_decide.
Qed.

Lemma wf_replace_node s l0 l it k v d v' d' cur mx :
  wf s → eviction_list s ≡ₚ (it, (k, v, d)) :: l0 →
  l ≡ₚ (it, (k, v', d')) :: l0 →
  wf (mk_cache l (next_node s) cur mx (cache_map s) (_strong s)).
Proof.
  intros [Hnd Hfr Hix] Hp Hp'. split; simpl.
  - rewrite Hp' fmap_cons /=. by rewrite Hp fmap_cons /= in Hnd.
  - intros it'. rewrite Hp' fmap_cons /=. intros ?. apply Hfr.
    by rewrite Hp fmap_cons.
  - intros k' it'. rewrite /= (Hix k' it').
    setoid_rewrite Hp. setoid_rewrite Hp'. setoid_rewrite elem_of_cons.
    split; intros (v0 & d0 & [?|?]); simplify_eq; eauto.
Qed.

Lemma merge_combined_wf E value s it e :
  wf s → deref it (eviction_list s) = Some e →
  wf (merge_combined E it e value s).
Proof.
  intros Hwf He. destruct e as [[k v] d]. unfold merge_combined.
  eapply (wf_replace_node s (unlink it (eviction_list s)) _ it k v d);
    [done|by apply unlink_perm|].
  destruct E; [done|]. symmetry. apply Permutation_cons_append.
Qed.

Lemma merge_combined_total E value s it e :
  trim_exact → deref it (eviction_list s) = Some e →
  total_size (eviction_list (merge_combined E it e value s)) =
  total_size (eviction_list s) - calc_size (get1 e)
  + merged_size (max_size s) (get1 e) value.
Proof.
  intros Htrim He.
  rewrite (total_size_perm _ _ (unlink_perm _ _ _ He)) /=.
  destruct E; rewrite ?total_size_app /= /get1 /= merged_size_eq //; lia.
Qed.

Lemma merge_combined_accounted E value s it e :
  trim_exact → accounted s → deref it (eviction_list s) = Some e →
  accounted (merge_combined E it e value s).
Proof.
  intros Htrim Hacc He. unfold accounted.
  rewrite merge_combined_total //. simpl. rewrite Hacc.
  repeat case_bool_decide.
  - rewrite to_size_t_plus_l. f_equal. lia.
  - rewrite to_size_t_minus_l. f_equal. lia.
  - f_equal. lia.
Qed.

Lemma merged_size_range mx (old value : V) :
  0 ≤ mx → 0 ≤ merged_size mx old value < size_t_modulus ∨
           merged_size mx old value = mx.
Proof.
  intros ?. unfold merged_size. destruct (merge_trims _ _ _); [by right|].
  left. apply calc_size_range.
Qed.
End merge_facts.

(** ** Every operation preserves the invariants *)

Section system.
Context {K : Type} `{Countable K} {V : Type} `{size_calc V} `{value_ops V}.
Implicit Types (s : cache K V) (l : eviction_type K V) (E : eviction).

Lemma invariant_new mx strong : invariant (cache_new (K:=K) (V:=V) mx strong).
Proof.
  split_and!.
  - split; simpl.
    + apply NoDup_nil_2.
    + by intros it ?%elem_of_nil.
    + intros k it. simpl. rewrite lookup_empty. split; [done|].
      by intros (? & ? & ?%elem_of_nil).
  - done.
  - done.
Qed.

Lemma wf_empty_absent s key :
  wf s → eviction_list s = [] → cache_map s !! key = None.
Proof.
  intros [_ _ Hix] Hnil. apply eq_None_not_Some. intros [it Hit].
  apply Hix in Hit as (? & ? & Hin). rewrite Hnil in Hin.
  by apply elem_of_nil in Hin.
Qed.

Lemma invariant_strong_absent s key :
  invariant s → _strong s = true → cache_map s !! key = None.
Proof. intros (Hwf & _ & Hse) Hs. apply wf_empty_absent; auto. Qed.

(** *** [add] *)

Lemma add_invariant E key value dirty s s' :
  invariant s → add E key value dirty s = Some s' → invariant s'.
Proof.
  intros Hinv Hadd. destruct (_strong s) eqn:Hs.
  - rewrite add_strong_absent // in Hadd; [|by apply invariant_strong_absent].
    by simplify_eq.
  - destruct Hinv as (Hwf & Hacc & _).
    apply add_weak_inv in Hadd as [[_ ->]|(s1 & Hr & Hadd)]; [| |done].
    { split_and!; [done..|]. intros ?; congruence. }
    apply remove_dirty_frame in Hr as Hfr.
    destruct Hfr as (_ & Hs1 & _ & Hk1). specialize (Hk1 eq_refl).
    split_and!.
    + eapply add_insert_wf; [|done..]. by eapply remove_dirty_wf.
    + eapply add_insert_accounted; [|done]. by eapply remove_dirty_accounted.
    + apply add_insert_frame in Hadd as [_ Hs']. intros ?. congruence.
Qed.

Lemma add_within_budget E key value dirty s s' :
  within_budget s → add E key value dirty s = Some s' → within_budget s'.
Proof.
  intros Hwb Hadd. destruct (_strong s) eqn:Hs.
  - apply add_strong_inv in Hadd as [[_ ->]|(it & s1 & _ & _ & Hadd)];
      [done| |done]. by eapply add_insert_within_budget.
  - apply add_weak_inv in Hadd as [[_ ->]|(s1 & _ & Hadd)]; [done| |done].
    by eapply add_insert_within_budget.
Qed.

Lemma add_frame E key value dirty s s' :
  add E key value dirty s = Some s' →
  max_size s' = max_size s ∧ _strong s' = _strong s.
Proof.
  intros Hadd. destruct (_strong s) eqn:Hs.
  - apply add_strong_inv in Hadd as [[_ ->]|(it & s1 & _ & Ht & Hadd)];
      [done| |done].
    apply add_insert_frame in Hadd as [-> ->].
    by apply touch__perm in Ht as (l & -> & _).
  - apply add_weak_inv in Hadd as [[_ ->]|(s1 & Hr & Hadd)]; [done| |done].
    apply add_insert_frame in Hadd as [-> ->].
    by apply remove_dirty_frame in Hr as (-> & -> & _).
Qed.

(** *** [merge(key, value, dirty)] *)

Lemma merge_inv E key value dirty s s' :
  wf s → merge E key value dirty s = Some s' →
  add_ E key value dirty s = Some s' ∧
    (_strong s = true ∨ cache_map s !! key = None) ∨
  ∃ it e, _strong s = false ∧ cache_map s !! key = Some it ∧
    deref it (eviction_list s) = Some e ∧
    fit_ _erase (merge_combined E it e value s) = Some s'.
Proof.
  intros Hwf Hm. destruct (_strong s) eqn:Hs.
  { left. unfold merge in Hm. rewrite Hs in Hm. auto. }
  destruct (cache_map s !! key) as [it|] eqn:Hk.
  - right. destruct (wf_lookup_deref s key it) as (v & d & He); [done..|].
    exists it, (key, v, d).
    rewrite (merge_present E key value dirty s it (key, v, d)) // in Hm.
    by destruct Hwf.
  - left. unfold merge in Hm. rewrite Hs Hk in Hm. auto.
Qed.

Lemma add__weak E key value dirty s :
  _strong s = false → add_ E key value dirty s = add_insert E key value dirty s.
Proof. intros Hs. unfold add_. by rewrite Hs. Qed.

Lemma merge_invariant E key value dirty s s' :
  trim_exact → invariant s → merge E key value dirty s = Some s' →
  invariant s'.
Proof.
  intros Htrim Hinv Hm. pose proof Hinv as (Hwf & Hacc & Hse).
  apply merge_inv in Hm as [[Hadd Hcase]|(it & e & Hs & Hk & He & Hfit)];
    [| |done].
  - destruct (_strong s) eqn:Hs.
    + rewrite add__strong_absent // in Hadd;
        [|by apply invariant_strong_absent]. by simplify_eq.
    + destruct Hcase as [|Hk]; [done|]. rewrite add__weak // in Hadd.
      split_and!.
      * by eapply add_insert_wf.
      * by eapply add_insert_accounted.
      * apply add_insert_frame in Hadd as [_ Hs']. intros ?. congruence.
  - split_and!.
    + eapply fit_erase_wf; [|done]. by apply merge_combined_wf.
    + apply accounted_with_0. eapply fit_accounted_with; [|done].
      apply accounted_with_0. by apply merge_combined_accounted.
    + apply fit_erase_frame in Hfit as (_ & Hs' & _). simpl in Hs'.
      intros ?. congruence.
Qed.

Lemma merge_within_budget E key value dirty s s' :
  wf s → within_budget s → merge E key value dirty s = Some s' →
  within_budget s'.
Proof.
  intros Hwf Hwb Hm.
  apply merge_inv in Hm as [[Hadd Hcase]|(it & e & Hs & Hk & He & Hfit)];
    [| |done].
  - apply (add_within_budget E key value dirty s); [done|].
    unfold add. destruct (_strong s) eqn:Hs; [done|].
    destruct Hcase as [|Hk]; [done|].
    unfold remove_dirty. by rewrite Hk.
  - by eapply fit_within_budget.
Qed.

Lemma merge_frame E key value dirty s s' :
  wf s → merge E key value dirty s = Some s' →
  max_size s' = max_size s ∧ _strong s' = _strong s.
Proof.
  intros Hwf Hm.
  apply merge_inv in Hm as [[Hadd Hcase]|(it & e & Hs & Hk & He & Hfit)];
    [| |done].
  - apply (add_frame E key value dirty s).
    unfold add. destruct (_strong s) eqn:Hs; [done|].
    destruct Hcase as [|Hk]; [done|].
    unfold remove_dirty. by rewrite Hk.
  - by apply fit_erase_frame in Hfit as (? & ? & _).
Qed.
End system.

Section transition_system.
Context {K : Type} `{Countable K} {V : Type} `{size_calc V} `{value_ops V}.
Implicit Types (s : cache K V) (l : eviction_type K V) (E : eviction).

(** *** [resize], [clear], [get], [remove] *)

Lemma fit_erase_invariant s s' :
  invariant s → fit_ _erase s = Some s' → invariant s'.
Proof.
  intros (Hwf & Hacc & Hse) Hfit. split_and!.
  - by eapply fit_erase_wf.
  - apply accounted_with_0. eapply fit_accounted_with; [|done].
    by apply accounted_with_0.
  - apply fit_erase_frame in Hfit as (_ & Hs' & _ & [ev Hev] & _).
    intros Hs. rewrite Hs' in Hs. rewrite (Hse Hs) in Hev.
    symmetry in Hev. by apply app_eq_nil in Hev as [? _].
Qed.

Lemma resize_invariant n s s' :
  invariant s → resize n s = Some s' → invariant s'.
Proof.
  intros (Hwf & Hacc & Hse). apply fit_erase_invariant.
  split_and!; [by apply wf_with_max|done..].
Qed.

Lemma clear_invariant s : invariant s → invariant (clear s).
Proof.
  intros _. split_and!; [|done..]. split; simpl.
  - apply NoDup_nil_2.
  - by intros it ?%elem_of_nil.
  - intros k it. simpl. rewrite lookup_empty. split; [done|].
    by intros (? & ? & ?%elem_of_nil).
Qed.

Lemma get_invariant E key ret do_touch s rc ret' s' :
  invariant s → get E key ret do_touch s = Some (rc, ret', s') →
  invariant s'.
Proof.
  intros Hinv [(_ & _ & _ & ->)|(it & e & _ & _ & _ & Hs')]%get_inv; [done|].
  destruct do_touch; [|by destruct Hs' as [-> _]].
  destruct Hs' as [Ht _]. destruct Hinv as (Hwf & Hacc & Hse).
  split_and!.
  - by eapply touch__wf.
  - by eapply touch__accounted.
  - apply touch__perm in Ht as (l & -> & Hp). intros Hs.
    rewrite (Hse Hs) in Hp. by apply Permutation_nil in Hp.
Qed.

Lemma get_frame E key ret do_touch s rc ret' s' :
  get E key ret do_touch s = Some (rc, ret', s') →
  max_size s' = max_size s ∧ current_size s' = current_size s.
Proof.
  intros [(_ & _ & _ & ->)|(it & e & _ & _ & _ & Hs')]%get_inv; [done|].
  destruct do_touch; [|by destruct Hs' as [-> _]].
  destruct Hs' as [Ht _]. by apply touch__perm in Ht as (l & -> & Hp).
Qed.

Lemma remove_inv key s s' :
  remove key s = Some s' → remove_dirty key false s = Some (true, s').
Proof.
  unfold remove.
  destruct (remove_dirty key false s) as [[b s1]|] eqn:Hr; simpl; [|done].
  intros [= <-]. f_equal.
  apply remove_dirty_inv in Hr as [(_ & -> & _)|(it & e & _ & _ & Hr)];
    [done|]. simpl in Hr. by destruct Hr as [-> _].
Qed.

Lemma remove_invariant key s s' :
  invariant s → remove key s = Some s' → invariant s'.
Proof.
  intros (Hwf & Hacc & Hse) Hr%remove_inv. split_and!.
  - by eapply remove_dirty_wf.
  - by eapply remove_dirty_accounted.
  - intros Hs.
    apply remove_dirty_frame in Hr as Hfr. destruct Hfr as (_ & Hs' & _).
    rewrite Hs' in Hs.
    rewrite /remove_dirty (wf_empty_absent s key) // in Hr; [|by auto].
    simplify_eq. by auto.
Qed.

(** *** The transition system *)

Lemma run_invariant E o s s' :
  trim_exact → invariant s → run E o s = Some s' → invariant s'.
Proof.
  intros Htrim Hinv. destruct o; simpl.
  - by apply add_invariant.
  - by apply merge_invariant.
  - by apply resize_invariant.
  - intros [= <-]. by apply clear_invariant.
  - destruct (get E key ret do_touch s) as [[[rc ret'] s1]|] eqn:Hg;
      simpl; [|done]. intros [= <-]. by eapply get_invariant.
  - by apply remove_invariant.
Qed.

Lemma reachable_invariant E s :
  trim_exact → reachable E s → invariant s.
Proof.
  intros Htrim. induction 1 as [mx strong|s o s' _ IH Hrun].
  - apply invariant_new.
  - by eapply run_invariant.
Qed.

Lemma run_within_budget E o s s' :
  invariant s → total_size (eviction_list s) < size_t_modulus →
  within_budget s → run E o s = Some s' → within_budget s'.
Proof.
  intros Hinv Hfits Hwb. destruct o; simpl.
  - by apply add_within_budget.
  - apply merge_within_budget; [by destruct Hinv|done].
  - apply fit_within_budget.
  - intros [= <-]. unfold within_budget. simpl. lia.
  - destruct (get E key ret do_touch s) as [[[rc ret'] s1]|] eqn:Hg;
      simpl; [|done]. intros [= <-].
    apply get_frame in Hg as [Hmax Hcur]. unfold within_budget.
    rewrite Hmax Hcur. apply Hwb.
  - intros Hr%remove_inv.
    apply remove_dirty_frame in Hr as Hfr. destruct Hfr as (Hmax & _).
    apply remove_dirty_no_wrap in Hr; [|by destruct Hinv as (_ & ? & _)|done].
    unfold within_budget in *. rewrite Hmax. intros ?. specialize (Hwb ltac:(done)). lia.
Qed.
End transition_system.

(** ** The value types of the examples *)

Lemma substring_length n (s : string) :
  (n ≤ String.length s)%nat → String.length (String.substring 0 n s) = n.
Proof.
  revert n. induction s as [|a s IH]; intros [|n] Hn; simpl in *;
    [done|lia|done|].
  rewrite IH; [done|lia].
Qed.

Lemma string_trim_exact : trim_exact (H0:=size_calc_string) (H1:=string_ops).
Proof.
  intros v n [Hpos Hn]. unfold calc_size, size_calc_call, size_calc_string in *.
  simpl. pose proof (to_size_t_range (Z.of_nat (String.length v))) as Hr.
  assert (to_size_t (Z.of_nat (String.length v)) ≤ Z.of_nat (String.length v)).
  { unfold to_size_t, size_t_modulus. apply Z.mod_le; [lia|done]. }
  rewrite substring_length; [|lia]. rewrite Z2Nat.id; [|lia].
  apply to_size_t_small. lia.
Qed.

Lemma counter_trim_exact : trim_exact (H0:=size_calc_counter) (H1:=counter_ops).
Proof.
  intros v n [Hpos Hn]. unfold calc_size, size_calc_call, size_calc_counter in *.
  simpl. pose proof (to_size_t_range v). apply to_size_t_small. lia.
Qed.

(** ** The recency scenarios *)

Section recency.
Context {V : Type}.
Local Existing Instance size_calc_unit.
Implicit Types (vals : nat → V) (E : eviction) (N n : nat).

Lemma unit_calc_size (v : V) : calc_size v = 1.
Proof. done. Qed.

Lemma keys_index_lookup n k :
  keys_index n !! k =
  if decide (0 ≤ k < Z.of_nat n) then Some (Z.to_nat k) else None.
Proof.
  induction n as [|n IH]; simpl.
  - rewrite lookup_empty. case_decide; [exfalso; lia|done].
  - destruct (decide (Z.of_nat n = k)) as [<-|Hne].
    + rewrite lookup_insert_eq decide_True; [|lia]. by rewrite Nat2Z.id.
    + rewrite lookup_insert_ne // IH.
      repeat case_decide; try done; exfalso; lia.
Qed.

Lemma keys_list_ids E vals n it :
  it ∈ (keys_list E vals n).*1 ↔ (it < n)%nat.
Proof.
  assert ((keys_list E vals n).*1 ≡ₚ seq 0 n) as ->.
  { destruct E; simpl; rewrite ?fmap_reverse ?reverse_Permutation
      -list_fmap_compose; by rewrite list_fmap_id. }
  rewrite elem_of_seq. lia.
Qed.

Lemma keys_list_succ E vals n :
  keys_list E vals (S n) =
  match E with
  | lru_eviction => key_node vals n :: keys_list E vals n
  | mru_eviction => keys_list E vals n ++ [key_node vals n]
  end.
Proof.
  destruct E; unfold keys_list; rewrite seq_S fmap_app; [|done].
  by rewrite reverse_snoc.
Qed.

(** Below capacity an insertion evicts nothing. *)
Lemma add_filled E vals N n :
  (n < N)%nat → Z.of_nat N < size_t_modulus →
  add E (Z.of_nat n) (vals n) false (filled E vals N n)
  = Some (filled E vals N (S n)).
Proof.
  intros Hn HN. unfold add, remove_dirty. simpl.
  rewrite keys_index_lookup decide_False /=; [|lia].
  unfold add_, add_insert. simpl. rewrite unit_calc_size.
  rewrite to_size_t_small; [|lia].
  rewrite fit_unfold. unfold over_budget. simpl.
  rewrite (bool_decide_eq_false_2 (Z.of_nat N < _)) ?andb_false_r /=;
    [|lia].
  unfold filled. f_equal. rewrite keys_list_succ.
  unfold with_map, with_next, with_list, with_current. simpl.
  f_equal. lia.
Qed.

Lemma insert_keys_succ E vals n s :
  insert_keys E vals (S n) s =
  s' ← insert_keys E vals n s; add E (Z.of_nat n) (vals n) false s'.
Proof. unfold insert_keys. by rewrite seq_S foldl_snoc. Qed.

Lemma insert_keys_filled E vals N n :
  (n ≤ N)%nat → Z.of_nat N < size_t_modulus →
  insert_keys E vals n (cache_new (Z.of_nat N) false)
  = Some (filled E vals N n).
Proof.
  intros Hn HN. induction n as [|n IH].
  - unfold insert_keys, cache_new, filled. simpl.
    rewrite to_size_t_small; [|lia]. by destruct E.
  - rewrite insert_keys_succ IH /=; [|lia]. by apply add_filled.
Qed.

Lemma key_nodes_ids vals (l : list nat) : (key_node vals <$> l).*1 = l.
Proof. rewrite -list_fmap_compose. apply list_fmap_id. Qed.

Lemma get_filled E vals ret N m :
  N = S m →
  get E 0 ret true (filled E vals N N)
  = Some (0, vals 0%nat,
          with_list (touched_list E vals m) (filled E vals N N)).
Proof.
  intros HN. unfold get, touch. simpl.
  rewrite keys_index_lookup decide_True /=; [|lia].
  assert (0%nat ∉ (key_node vals <$> seq 1 m).*1) as Hnin.
  { rewrite key_nodes_ids elem_of_seq. lia. }
  unfold touch_, splice_begin, splice_end. subst N. destruct E; simpl.
  - rewrite reverse_cons deref_snoc /=; [|by rewrite fmap_reverse elem_of_reverse].
    rewrite unlink_snoc; [|by rewrite fmap_reverse elem_of_reverse].
    done.
  - by rewrite deref_snoc.
Qed.

(** The insertion of key [N] into the full cache after [get(0)]: the
    node at the back of the list goes. *)
Lemma add_touched_lru vals N m :
  N = S (S m) → Z.of_nat N + 1 < size_t_modulus →
  add lru_eviction (Z.of_nat N) (vals N) false
      (with_list (touched_list lru_eviction vals (S m))
                 (filled lru_eviction vals N N))
  = Some (mk_cache
            (key_node vals N :: key_node vals 0
               :: reverse (key_node vals <$> seq 2 m))
            (S N) (Z.of_nat N) (Z.of_nat N)
            (<[Z.of_nat N := N]> (delete 1 (keys_index N))) false).
Proof.
  intros HNeq HN. unfold add, remove_dirty. simpl.
  rewrite keys_index_lookup decide_False /=; [|lia].
  unfold add_, add_insert. simpl. rewrite unit_calc_size.
  rewrite fit_unfold. unfold over_budget. simpl.
  rewrite to_size_t_small; [|lia].
  rewrite !bool_decide_eq_true_2 /=; [|lia..].
  erewrite evict_back_snoc; last first.
  { simpl. rewrite reverse_cons. by rewrite app_comm_cons. }
  simpl. rewrite fit_unfold. unfold over_budget, _erase. simpl.
  rewrite unit_calc_size to_size_t_small; [|lia].
  rewrite (bool_decide_eq_false_2 (_ < _ - 1)) ?andb_false_r /=; [|lia].
  unfold with_map, with_next, with_list, with_current, key_node. simpl.
  do 2 f_equal. lia.
Qed.

Lemma add_touched_mru vals N m :
  N = S m → Z.of_nat N + 1 < size_t_modulus →
  add mru_eviction (Z.of_nat N) (vals N) false
      (with_list (touched_list mru_eviction vals m)
                 (filled mru_eviction vals N N))
  = Some (mk_cache
            ((key_node vals <$> seq 1 m) ++ [key_node vals N])
            (S N) (Z.of_nat N) (Z.of_nat N)
            (<[Z.of_nat N := N]> (delete 0 (keys_index N))) false).
Proof.
  intros HNeq HN. unfold add, remove_dirty. simpl.
  rewrite keys_index_lookup decide_False /=; [|lia].
  unfold add_, add_insert. simpl. rewrite unit_calc_size.
  rewrite fit_unfold. unfold over_budget. simpl.
  rewrite to_size_t_small; [|lia].
  rewrite !bool_decide_eq_true_2 /=; [|lia..].
  erewrite evict_back_snoc; [|done].
  simpl. rewrite fit_unfold. unfold over_budget, _erase. simpl.
  rewrite unit_calc_size to_size_t_small; [|lia].
  rewrite (bool_decide_eq_false_2 (_ < _ - 1)) ?andb_false_r /=; [|lia].
  unfold with_map, with_next, with_list, with_current, key_node. simpl.
  do 2 f_equal. lia.
Qed.

Lemma filled_exists E vals N i :
  (i < N)%nat → exists_ (Z.of_nat i) (filled E vals N N) = true.
Proof.
  intros Hi. unfold exists_. simpl. apply bool_decide_eq_true.
  rewrite keys_index_lookup decide_True; [done|lia].
Qed.
End recency.

(** * The test suite on the model

    The tests of [src/test/lru_test.cpp], evaluated: the values are those
    the tests expect. *)

Section test_suite.
Local Existing Instance size_calc_unit.

(** "Return value previously added" *)
Example test_return_value_previously_added :
  (s ← add lru_eviction 0 15 false (cache_new 1024 false);
   '(rc, value, _) ← get lru_eviction 0 0 true s;
   Some (rc, value)) = Some (0, 15).
Proof. reflexivity. Qed.

(** "Update value on re-insertion" *)
Example test_update_value_on_reinsertion :
  (s ← add lru_eviction 0 15 false (cache_new 1024 false);
   s ← add lru_eviction 0 16 false s;
   '(rc, value, _) ← get lru_eviction 0 0 true s;
   Some (rc, value, size s)) = Some (0, 16, 1).
Proof. reflexivity. Qed.

(** "Enforce the max_size limits": key 0, not touched, is evicted. *)
Example test_enforce_max_size :
  (s ← add_and_get lru_eviction 1024 (cache_new 1024 false);
   '(rc1, value1, s) ← get lru_eviction 0 0 false s;
   s ← add lru_eviction (-1) 14 false s;
   '(rc2, _, _) ← get lru_eviction 0 0 true s;
   Some (rc1, value1, rc2)) = Some (0, 15, -1).
Proof. vm_compute. reflexivity. Qed.

(** "Return not fail removal on miss" *)
Example test_removal_on_miss :
  ('(rc1, _, s) ← get lru_eviction 5 0 true (cache_new 0 false);
   s ← remove 5 s;
   '(rc2, value, _) ← get lru_eviction 5 0 true s;
   Some (rc1, rc2, value)) = Some (-1, -1, 0).
Proof. reflexivity. Qed.

(** "Properly remove on hit" *)
Example test_removal_on_hit :
  (s ← add lru_eviction 5 15 false (cache_new 0 false);
   '(rc1, value1, s) ← get lru_eviction 5 0 true s;
   s ← remove 5 s;
   '(rc2, value2, _) ← get lru_eviction 5 0 true s;
   Some (rc1, value1, rc2, value2)) = Some (0, 15, -1, 0).
Proof. reflexivity. Qed.

(** "Evict the Least Recently Accessed": key 0, touched, stays. *)
Example test_evict_least_recently_accessed :
  (s ← add_and_get lru_eviction 1024 (cache_new 1024 false);
   '(rc1, value1, s) ← get lru_eviction 0 0 true s;
   s ← add lru_eviction (-1) 14 false s;
   '(rc2, value2, _) ← get lru_eviction 0 0 true s;
   Some (rc1, value1, rc2, value2)) = Some (0, 15, 0, 15).
Proof. vm_compute. reflexivity. Qed.

(** "Dirty additions leave original value" *)
Example test_dirty_additions :
  (s ← add lru_eviction 0 15 false (cache_new 0 false);
   '(_, value1, s) ← get lru_eviction 0 0 true s;
   s ← add lru_eviction 0 16 true s;
   '(_, value2, s) ← get lru_eviction 0 0 true s;
   s ← add lru_eviction 0 14 false s;
   '(_, value3, _) ← get lru_eviction 0 0 true s;
   Some (value1, value2, value3)) = Some (15, 15, 14).
Proof. reflexivity. Qed.
End test_suite.

(** "Use customized size_calc template" *)
Example test_customized_size_calc :
  (s ← add (H0:=size_calc_string) lru_eviction 0 "0123456789"%string false
           (cache_new 19 false);
   '(rc, value, s) ← get lru_eviction 0 EmptyString true s;
   Some (rc, value, size s)) = Some (0, "0123456789"%string, 10).
Proof. reflexivity. Qed.

(** * The claims of the specification *)

(** Closed goals about concrete caches are settled by evaluation. *)
Ltac by_computation := vm_compute; reflexivity.

(** ** The caches of the examples are states of the program *)

Section fixtures.
Lemma dirty_test_cache_add :
  add (H0:=size_calc_unit) lru_eviction 0 15 false (cache_new 0 false)
  = Some dirty_test_cache.
Proof. done. Qed.

Lemma dirty_test_cache_invariant :
  invariant (H0:=size_calc_unit) dirty_test_cache.
Proof.
  eapply add_invariant; [apply invariant_new|apply dirty_test_cache_add].
Qed.

Lemma string_test_cache_add :
  add (H0:=size_calc_string) lru_eviction 0 "0123456789"%string false
      (cache_new 19 false)
  = Some string_test_cache.
Proof. done. Qed.

Lemma string_test_cache_invariant :
  invariant (H0:=size_calc_string) string_test_cache.
Proof.
  eapply add_invariant; [apply invariant_new|apply string_test_cache_add].
Qed.

Lemma counter_cache_add :
  add (H0:=size_calc_counter) lru_eviction 1 5 false (cache_new 10 false)
  = Some counter_cache.
Proof. done. Qed.

Lemma counter_cache_invariant :
  invariant (H0:=size_calc_counter) counter_cache.
Proof.
  eapply add_invariant; [apply invariant_new|apply counter_cache_add].
Qed.

Lemma counter_cache_wrapped_add :
  add (H0:=size_calc_counter) lru_eviction 2 (2 ^ 64 - 1) false counter_cache
  = Some counter_cache_wrapped.
Proof. done. Qed.

Lemma string_pair_cache_add E :
  add (H0:=size_calc_string) E 1 "abcdefg"%string false string_test_cache
  = Some (string_pair_cache E).
Proof. by destruct E. Qed.

Lemma string_pair_cache_invariant E :
  invariant (H0:=size_calc_string) (string_pair_cache E).
Proof.
  eapply add_invariant;
    [apply string_test_cache_invariant|apply string_pair_cache_add].
Qed.
End fixtures.

(** ** Strong association (C1) *)

Section strong_association.
Context {K : Type} `{Countable K} {V : Type} `{size_calc V}.
Implicit Types (s : cache K V) (E : eviction).

(** C1 (the code departs from the claim). The claim: in strong-association
    mode [add] inserts the pair unconditionally, in particular a key that
    is not in the cache. The code: [add_] returns at once when [touch]
    does not find the key, so on a cache in strong-association mode [add]
    of a key that is not in the cache changes nothing, and the key is not
    found afterwards. *)
Theorem C1_strong_add_stores_nothing E key value dirty ret do_touch s :
  _strong s = true → cache_map s !! key = None →
  add E key value dirty s = Some s ∧
  get E key ret do_touch s = Some (-1, ret, s) ∧
  exists_ key s = false.
Proof.
  intros Hs Hk. split_and!.
  - by apply add_strong_absent.
  - by apply get_not_found.
  - unfold exists_. rewrite Hk. apply bool_decide_eq_false. by intros [].
Qed.

(** Hence a cache in strong-association mode never holds anything. *)
Lemma strong_cache_stays_empty `{value_ops V} E s :
  trim_exact → reachable E s → _strong s = true →
  eviction_list s = [] ∧ cache_map s = ∅ ∧ current_size s = 0.
Proof.
  intros Htrim Hinv%reachable_invariant Hs; [|done].
  pose proof Hinv as (Hwf & Hacc & Hse). split_and!.
  - by apply Hse.
  - apply map_eq. intros k. rewrite lookup_empty.
    by apply invariant_strong_absent.
  - by rewrite Hacc Hse.
Qed.
End strong_association.

(** C1 at the cache [lru_cache<int, int> cache(1024, true)] and
    [add(0, 15)]. *)
Lemma C1_strong_add_stores_nothing_witness :
  let s : cache Z Z := cache_new 1024 true in
  _strong s = true ∧ cache_map s !! 0 = None ∧
  add (H0:=size_calc_unit) lru_eviction 0 15 false s = Some s ∧
  get lru_eviction 0 0 true s = Some (-1, 0, s) ∧
  exists_ 0 s = false.
Proof.
  intros s. do 2 (split; [reflexivity|]).
  apply C1_strong_add_stores_nothing; reflexivity.
Defined.

(** ** Oversized values and the loop of [fit_] (C2, C3) *)

Section oversized.
Context {K : Type} `{Countable K} {V : Type} `{size_calc V}.
Implicit Types (s : cache K V) (E : eviction).

(** With exact books and more pending than the capacity, the guard stays
    true down to the empty list. *)
Lemma fit_oversized (c : erase_map) pending s :
  accounted_with pending s →
  total_size (eviction_list s) + pending < size_t_modulus →
  0 < max_size s → max_size s < pending →
  fit_ c s = None.
Proof.
  remember (length (eviction_list s)) as n eqn:Hn. revert s Hn.
  induction n as [|n IH]; intros s Hn Hacc Hfits Hpos Hover.
  - apply fit_empty_over_budget; [by apply nil_length_inv|].
    unfold over_budget. rewrite Hacc.
    pose proof (total_size_nonneg (eviction_list s)).
    rewrite to_size_t_small; [|lia]. rewrite !bool_decide_eq_true_2 //. lia.
  - rewrite fit_unfold.
    assert (over_budget s = true) as ->.
    { unfold over_budget. rewrite Hacc.
      pose proof (total_size_nonneg (eviction_list s)).
      rewrite to_size_t_small; [|lia].
      rewrite !bool_decide_eq_true_2 //. lia. }
    destruct (evict_back c s) as [s1|] eqn:Hs1; simpl; [|done].
    apply evict_back_length in Hs1 as Hlen.
    apply (evict_back_accounted_with _ pending) in Hs1 as Hacc1; [|done].
    apply evict_back_inv in Hs1 as (l & nd & Hl & ->). simpl in *.
    apply IH; simpl; [lia|done| |done..].
    rewrite Hl total_size_app /= in Hfits.
    pose proof (calc_size_range (get1 nd.2)). lia.
Qed.

(** C3 (the code departs from the claim). The claim: the loop of [fit_]
    stops when the eviction sequence is empty and never takes an entry
    from an empty sequence. The code: the guard of the loop does not look
    at the list; when a value larger than [max_size] is added to a cache
    whose books are exact, the loop pops every node and then calls
    [back()] on the empty list, which is undefined: [add] does not
    return. *)
Theorem C3_fit_takes_back_of_empty_list E key value s :
  wf s → accounted s → _strong s = false →
  total_size (eviction_list s) + calc_size value < size_t_modulus →
  0 < max_size s → max_size s < calc_size value →
  add E key value false s = None.
Proof.
  intros Hwf Hacc Hs Hfits Hpos Hover. unfold add. rewrite Hs.
  destruct (remove_dirty key false s) as [[b s1]|] eqn:Hr; simpl; [|done].
  apply remove_dirty_frame in Hr as Hfr. destruct Hfr as (Hmax & Hs1 & _).
  apply remove_dirty_accounted in Hr as Hacc1; [|done].
  assert (total_size (eviction_list s1) ≤ total_size (eviction_list s)).
  { apply remove_dirty_inv in Hr as [(_ & _ & ->)|(it & e & _ & He & Hr)];
      [done|]. simpl in Hr. destruct Hr as [_ ->]. simpl.
    rewrite (total_size_perm _ _ (unlink_perm _ _ _ He)) /=.
    pose proof (calc_size_range (get1 e)). lia. }
  assert (b = true) as ->.
  { apply remove_dirty_inv in Hr as [(_ & -> & _)|(it & e & _ & _ & Hr)];
      [done|]. simpl in Hr. by destruct Hr. }
  simpl. rewrite add__weak; [|congruence]. unfold add_insert.
  rewrite (fit_oversized _ (calc_size value)); [done|..]; simpl; [|lia..].
  unfold accounted_with. simpl. by rewrite Hacc1 to_size_t_plus_l.
Qed.

(** With exact books, a write that is not refused of a value larger than
    the capacity does not return: its entry removed, the loop of [fit_]
    pops every node and takes [back()] of the empty list. *)
Lemma add_oversized_undefined E key value dirty s :
  accounted s → _strong s = false →
  refuses dirty (entry_of key s) = false →
  total_size (eviction_list s) + calc_size value < size_t_modulus →
  0 < max_size s → max_size s < calc_size value →
  add E key value dirty s = None.
Proof.
  intros Hacc Hs Href Hfits Hpos Hover. unfold add. rewrite Hs.
  destruct (remove_dirty key dirty s) as [[b s1]|] eqn:Hr; simpl; [|done].
  apply remove_dirty_frame in Hr as Hfr. destruct Hfr as (Hmax & Hs1 & _).
  apply remove_dirty_accounted in Hr as Hacc1; [|done].
  apply remove_dirty_inv in Hr as [(_ & -> & ->)|(it & e & Hk & He & Hr)].
  - simpl. rewrite add__weak //. unfold add_insert.
    rewrite (fit_oversized _ (calc_size value)); [done|..]; simpl; [|lia..].
    unfold accounted_with. simpl. by rewrite Hacc to_size_t_plus_l.
  - unfold entry_of in Href. rewrite Hk /= He /= in Href.
    rewrite Href in Hr. destruct Hr as [-> ->]. simpl.
    rewrite add__weak //. unfold add_insert.
    rewrite (fit_oversized _ (calc_size value)); [done|..]; simpl;
      [|rewrite (total_size_perm _ _ (unlink_perm _ _ _ He)) /= in Hfits;
        pose proof (calc_size_range (get1 e)); lia|lia..].
    unfold accounted_with. simpl.
    unfold accounted in Hacc1. simpl in Hacc1.
    by rewrite Hacc1 to_size_t_plus_l.
Qed.

(** C2 (the code departs from the claim). The claim: [add] of a value
    larger than [max_size] completes, the entry being admitted and then
    evicted, so that [get] misses afterwards. The code: [add_] runs the
    loop of [fit_] before it pushes the entry. On a cache with exact
    books the loop pops every node and then takes [back()] of the empty
    list: [add] does not return. And an [add] that returns has pushed the
    entry after the loop, so that the entry is in the eviction list and
    [get] finds it: in no case is the entry admitted and then evicted. *)
Theorem C2_oversized_add_does_not_complete E key value ret s :
  wf s → _strong s = false →
  0 < max_size s → max_size s < calc_size value →
  (accounted s →
   total_size (eviction_list s) + calc_size value < size_t_modulus →
   add E key value false s = None) ∧
  (∀ s', add E key value false s = Some s' →
     (∃ s'', get E key ret true s' = Some (0, value, s'')) ∧
     ∃ it, cache_map s' !! key = Some it ∧
           (it, (key, value, false)) ∈ eviction_list s').
Proof.
  intros Hwf Hs Hmax Hover. split.
  - intros Hacc Hfits. apply add_oversized_undefined; try done.
    by destruct (entry_of key s).
  - intros s' Hadd.
    apply add_weak_inv in Hadd as [[Hr _]|(s1 & Hr & Hadd)]; [| |done].
    { apply remove_dirty_inv in Hr
        as [(_ & ? & _)|(it & e & _ & _ & ? & _)]; done. }
    assert (wf s1) as Hwf1 by by eapply remove_dirty_wf.
    assert (wf s') as Hwf'.
    { eapply add_insert_wf; [done| |done].
      by apply remove_dirty_frame in Hr as (_ & _ & _ & ->). }
    destruct (add_insert_lookup _ _ _ _ _ _ Hwf1 Hadd) as (it & Hk & He).
    split.
    + destruct (get_found E key ret true s' it (key, value, false))
        as [s'' Hg]; [by destruct Hwf'|done..|]. by exists s''.
    + exists it. split; [done|]. by apply deref_elem_of.
Qed.
End oversized.

Section oversized_examples.
Local Existing Instance size_calc_string.

(** C3 at [lru_cache<int, std::string> cache(19)] and a string of 20
    characters. *)
Lemma C3_fit_takes_back_of_empty_list_witness :
  let s : cache Z string := cache_new 19 false in
  let value := "01234567890123456789"%string in
  wf s ∧ accounted s ∧ _strong s = false ∧
  total_size (eviction_list s) + calc_size value < size_t_modulus ∧
  0 < max_size s ∧ max_size s < calc_size value ∧
  add lru_eviction 0 value false s = None.
Proof.
  intros s value. pose proof (invariant_new (K:=Z) (V:=string) 19 false)
    as (Hwf & Hacc & _).
  split; [exact Hwf|]. split; [exact Hacc|].
  do 4 (split; [by_computation|]).
  apply C3_fit_takes_back_of_empty_list;
    [exact Hwf|exact Hacc|by_computation..].
Defined.

(** C2 at [lru_cache<int, std::string> cache(19)] and a string of 20
    characters: [add] does not complete. *)
Lemma C2_oversized_add_does_not_complete_witness :
  let s : cache Z string := cache_new 19 false in
  let value := "01234567890123456789"%string in
  wf s ∧ _strong s = false ∧ 0 < max_size s ∧ max_size s < calc_size value ∧
  accounted s ∧
  total_size (eviction_list s) + calc_size value < size_t_modulus ∧
  add lru_eviction 0 value false s = None.
Proof.
  intros s value. pose proof (invariant_new (K:=Z) (V:=string) 19 false)
    as (Hwf & Hacc & _).
  split; [exact Hwf|]. do 3 (split; [by_computation|]).
  split; [exact Hacc|]. split; [by_computation|].
  apply (C2_oversized_add_does_not_complete lru_eviction 0 value
           EmptyString s Hwf);
    [by_computation..|exact Hacc|by_computation].
Defined.
End oversized_examples.

(** ** Dirty writes (C5) *)

Section dirty.
Context {K : Type} `{Countable K} {V : Type} `{size_calc V}.
Implicit Types (s : cache K V) (E : eviction).

(** C5 (the code departs from the claim). The claim: on a cache that is
    not in strong-association mode and holds a clean entry [(k, v_old)],
    [add(k, v_new, dirty = true)] is refused and leaves the cache
    unchanged, and a following [add(k, v3, dirty = false)] overwrites, so
    that [get(k)] returns [v3]. The code does the first for every cache.
    It does the second when [v3] fits the capacity: [add] returns, the
    cache is well formed (one entry for [k]) and [get(k)] returns [v3].
    When [v3] is larger than [max_size] and the books are exact, the
    clean [add] removes the entry of [k] and then does not return: the
    loop of [fit_] takes [back()] of the empty list. *)
Theorem C5_dirty_write_protection E k v_old v_new v3 ret it s :
  wf s → accounted s → _strong s = false →
  cache_map s !! k = Some it →
  deref it (eviction_list s) = Some (k, v_old, false) →
  add E k v_new true s = Some s ∧
  get E k ret false s = Some (0, v_old, s) ∧
  (∃ s1, get E k ret true s = Some (0, v_old, s1)) ∧
  (∀ s', add E k v3 false s = Some s' →
         wf s' ∧ ∃ s'', get E k ret true s' = Some (0, v3, s'')) ∧
  ((0 < max_size s → calc_size v3 ≤ max_size s) →
   is_Some (add E k v3 false s)) ∧
  (total_size (eviction_list s) + calc_size v3 < size_t_modulus →
   0 < max_size s → max_size s < calc_size v3 →
   add E k v3 false s = None).
Proof.
  intros Hwf Hacc Hs Hk He. split_and!.
  - unfold add, remove_dirty. by rewrite Hs Hk /= He.
  - unfold get. by rewrite Hk /= He.
  - destruct (get_found E k ret true s it (k, v_old, false)) as [s1 Hg];
      [by destruct Hwf|done..|]. by exists s1.
  - intros s' Hadd.
    apply add_weak_inv in Hadd as [[Hr _]|(s1 & Hr & Hadd)]; [| |done].
    { apply remove_dirty_inv in Hr as [(_ & ? & _)|(? & ? & _ & _ & ? & _)];
        done. }
    assert (wf s1) as Hwf1 by by eapply remove_dirty_wf.
    assert (wf s') as Hwf'.
    { eapply add_insert_wf; [done| |done].
      by apply remove_dirty_frame in Hr as (_ & _ & _ & ->). }
    destruct (add_insert_lookup _ _ _ _ _ _ Hwf1 Hadd) as (it' & Hk' & He').
    destruct (get_found E k ret true s' it' (k, v3, false)) as [s'' Hg];
      [by destruct Hwf'|done..|]. split; [done|]. by exists s''.
  - intros Hfits.
    assert (remove_dirty k false s =
            Some (true,
                  mk_cache (unlink it (eviction_list s)) (next_node s)
                    (to_size_t (current_size s - calc_size v_old))
                    (max_size s) (delete k (cache_map s)) (_strong s)))
      as Hr.
    { unfold remove_dirty, remove_, list_erase. by rewrite Hk /= He /=. }
    unfold add. rewrite Hs Hr /=. rewrite add__weak //.
    apply add_insert_is_Some; [|done].
    by eapply remove_dirty_accounted.
  - intros Hfits Hpos Hover. apply add_oversized_undefined; try done.
    unfold entry_of. by rewrite Hk /= He.
Qed.
End dirty.

Section dirty_example.
Local Existing Instance size_calc_string.

(** C5 at [lru_cache<int, std::string> cache(19)] holding
    [(0, "0123456789")]: the dirty [add(0, "abc", true)] is refused, and the
    clean [add] of a string of 20 characters does not complete. *)
Lemma C5_dirty_write_protection_witness :
  let s := string_test_cache in
  let v3 := "01234567890123456789"%string in
  wf s ∧ accounted s ∧ _strong s = false ∧
  cache_map s !! 0 = Some 0%nat ∧
  deref 0%nat (eviction_list s) = Some (0, "0123456789"%string, false) ∧
  add lru_eviction 0 "abc"%string true s = Some s ∧
  get lru_eviction 0 EmptyString false s
  = Some (0, "0123456789"%string, s) ∧
  total_size (eviction_list s) + calc_size v3 < size_t_modulus ∧
  0 < max_size s ∧ max_size s < calc_size v3 ∧
  add lru_eviction 0 v3 false s = None.
Proof.
  intros s v3. pose proof string_test_cache_invariant as (Hwf & Hacc & _).
  pose proof (C5_dirty_write_protection lru_eviction 0 "0123456789"%string
                "abc"%string v3 EmptyString 0%nat s Hwf Hacc
                eq_refl eq_refl eq_refl) as (Hdirty & Hget & _ & _ & _ & Hv3).
  split; [exact Hwf|]. split; [exact Hacc|].
  do 3 (split; [by_computation|]).
  split; [exact Hdirty|]. split; [exact Hget|].
  do 3 (split; [by_computation|]).
  apply Hv3; by_computation.
Defined.
End dirty_example.

(** ** Size accounting and the capacity bound (C6, C4) *)

Section accounting.
Context {K : Type} `{Countable K} {V : Type} `{size_calc V} `{value_ops V}.
Implicit Types (s : cache K V) (E : eviction).

(** C6 (amended). After every public operation that returns, index and
    eviction sequence are in bijection and [current_size] is the sum of
    the sizes of the live values modulo [2^64], the arithmetic of
    [size_t]; it is the sum itself whenever the sum is below [2^64]. For
    every size calculator, both strategies and both association modes,
    given a [trim] that trims to exactly the requested size. *)
Theorem C6_size_accounting E s :
  trim_exact → reachable E s →
  wf s ∧
  current_size s = to_size_t (total_size (eviction_list s)) ∧
  (total_size (eviction_list s) < size_t_modulus →
   current_size s = total_size (eviction_list s)).
Proof.
  intros Htrim Hr. apply reachable_invariant in Hr as (Hwf & Hacc & _);
    [|done].
  split_and!; [done..|]. by apply accounted_fits.
Qed.

Lemma reachable_exactly_invariant E s :
  trim_exact → reachable_exactly E s →
  invariant s ∧ total_size (eviction_list s) < size_t_modulus ∧
  within_budget s.
Proof.
  intros Htrim. induction 1 as [mx strong|s o s' _ (Hinv & Hfits & Hwb) Hrun Hfits'].
  - split_and!; [apply invariant_new|done|].
    intros _. simpl. pose proof (to_size_t_range mx). lia.
  - split_and!; [by eapply run_invariant|done|by eapply run_within_budget].
Qed.

(** C4 (amended). As long as the sum of the sizes of the live values has
    stayed below [2^64] after every operation, [current_size <= max_size]
    holds after every public operation that returns on a cache with
    [max_size > 0]. *)
Theorem C4_capacity_bound E s :
  trim_exact → reachable_exactly E s →
  0 < max_size s → current_size s ≤ max_size s.
Proof.
  intros Htrim Hr. by apply reachable_exactly_invariant in Hr as (_ & _ & ?).
Qed.
End accounting.

Section accounting_examples.
Local Existing Instance size_calc_string.
Local Existing Instance string_ops.

Lemma string_test_cache_reachable :
  reachable lru_eviction string_test_cache.
Proof.
  apply (reachable_run lru_eviction (cache_new 19 false)
           (op_add 0 "0123456789"%string false));
    [apply reachable_new|reflexivity].
Qed.

Lemma string_test_cache_reachable_exactly :
  reachable_exactly lru_eviction string_test_cache.
Proof.
  apply (reachable_exactly_run lru_eviction (cache_new 19 false)
           (op_add 0 "0123456789"%string false));
    [apply reachable_exactly_new|by_computation..].
Qed.

(** C6 (amended) on the test "Use customized size_calc template". *)
Lemma C6_size_accounting_witness :
  trim_exact ∧ reachable lru_eviction string_test_cache ∧
  wf string_test_cache ∧
  current_size string_test_cache
  = to_size_t (total_size (eviction_list string_test_cache)) ∧
  (total_size (eviction_list string_test_cache) < size_t_modulus →
   current_size string_test_cache
   = total_size (eviction_list string_test_cache)).
Proof.
  split; [exact string_trim_exact|].
  split; [exact string_test_cache_reachable|].
  apply (C6_size_accounting lru_eviction string_test_cache);
    [exact string_trim_exact|exact string_test_cache_reachable].
Defined.

(** C4 (amended) on the same cache. *)
Lemma C4_capacity_bound_witness :
  trim_exact ∧ reachable_exactly lru_eviction string_test_cache ∧
  0 < max_size string_test_cache ∧
  current_size string_test_cache ≤ max_size string_test_cache.
Proof.
  split; [exact string_trim_exact|].
  split; [exact string_test_cache_reachable_exactly|].
  split; [by_computation|].
  apply (C4_capacity_bound lru_eviction string_test_cache);
    [exact string_trim_exact|exact string_test_cache_reachable_exactly|
     by_computation].
Defined.
End accounting_examples.

Section accounting_counterexamples.
Local Existing Instance size_calc_counter.
Local Existing Instance counter_ops.

(** C6 as the claim states it: two values of [2^63] units in an unbounded
    cache sum to [2^64], and [current_size] is [0]. *)
Lemma C6_size_accounting_counterexample :
  ∃ s1 s : cache Z Z,
    add lru_eviction 1 (2 ^ 63) false (cache_new 0 false) = Some s1 ∧
    add lru_eviction 2 (2 ^ 63) false s1 = Some s ∧
    reachable lru_eviction s ∧
    current_size s = 0 ∧ total_size (eviction_list s) = 2 ^ 64 ∧
    current_size s ≠ total_size (eviction_list s).
Proof.
  eexists _, _. split; [reflexivity|]. split; [reflexivity|]. split.
  - eapply (reachable_run _ _ (op_add 2 (2 ^ 63) false)).
    + eapply (reachable_run _ _ (op_add 1 (2 ^ 63) false));
        [apply (reachable_new _ 0 false)|reflexivity].
    + reflexivity.
  - split; [by_computation|]. split; [by_computation|].
    vm_compute. discriminate.
Qed.

(** C4 as the claim states it: in a cache of capacity 10 holding 5 units,
    a value of [2^64 - 1] units wraps [current_size] around to 4 and is
    admitted; [remove] of the first entry then wraps it to [2^64 - 1]. *)
Lemma C4_capacity_bound_counterexample :
  ∃ s : cache Z Z,
    add lru_eviction 1 5 false (cache_new 10 false) = Some counter_cache ∧
    add lru_eviction 2 (2 ^ 64 - 1) false counter_cache
    = Some counter_cache_wrapped ∧
    remove 1 counter_cache_wrapped = Some s ∧
    reachable lru_eviction s ∧
    max_size s = 10 ∧ current_size s = 2 ^ 64 - 1 ∧
    ¬ current_size s ≤ max_size s.
Proof.
  eexists. do 3 (split; [reflexivity|]). split.
  - eapply (reachable_run _ _ (op_remove 1)).
    + eapply (reachable_run _ _ (op_add 2 (2 ^ 64 - 1) false)).
      * eapply (reachable_run _ _ (op_add 1 5 false));
          [apply (reachable_new _ 10 false)|reflexivity].
      * reflexivity.
    + reflexivity.
  - split; [by_computation|]. split; [by_computation|].
    vm_compute. intros Hle. by apply Hle.
Qed.
End accounting_counterexamples.

(** ** The recency scenarios (C7, C8) *)

Section recency_claims.
Context {V : Type}.
Local Existing Instance size_calc_unit.
Implicit Types (vals : nat → V) (E : eviction) (N n : nat).

(** C7 (amended). An LRU cache of capacity [N >= 2] (and [N + 1] within
    [size_t]) with entries of one unit: the insertion of keys [0..N-1]
    evicts nothing; [get(0)] finds key [0] and leaves key [1] at the
    eviction end; the insertion of key [N] then returns, after which
    key [0] is still retrievable and key [1] is gone. *)
Theorem C7_lru_recency vals ret N :
  (2 ≤ N)%nat → Z.of_nat N + 1 < size_t_modulus →
  ∃ s1 s2 s,
    insert_keys lru_eviction vals N (cache_new (Z.of_nat N) false) = Some s1 ∧
    (∀ i, (i < N)%nat → exists_ (Z.of_nat i) s1 = true) ∧
    get lru_eviction 0 ret true s1 = Some (0, vals 0%nat, s2) ∧
    last (eviction_list s2) = Some (1%nat, (1, vals 1%nat, false)) ∧
    add lru_eviction (Z.of_nat N) (vals N) false s2 = Some s ∧
    recency_scenario lru_eviction vals ret N = Some s ∧
    (∃ s', get lru_eviction 0 ret true s = Some (0, vals 0%nat, s')) ∧
    get lru_eviction 1 ret true s = Some (-1, ret, s) ∧
    exists_ 1 s = false ∧
    exists_ (Z.of_nat N) s = true.
Proof.
  intros HN2 HN. destruct N as [|[|m]]; [lia..|].
  set (N := S (S m)) in *.
  assert (N = S (S m)) as HNeq by done. clearbody N.
  pose proof (insert_keys_filled lru_eviction vals N N) as Hins.
  pose proof (get_filled lru_eviction vals ret N (S m) HNeq) as Hget.
  pose proof (add_touched_lru vals N m HNeq HN) as Hadd.
  eexists _, _, _. split_and!.
  - apply Hins; lia.
  - intros i Hi. by apply filled_exists.
  - apply Hget.
  - simpl. rewrite reverse_cons. by rewrite app_comm_cons last_snoc.
  - apply Hadd.
  - unfold recency_scenario. rewrite Hins; [|lia..].
    cbn [mbind option_bind]. rewrite Hget. cbn [mbind option_bind].
    apply Hadd.
  - assert (NoDup (N :: 0%nat :: reverse (seq 2 m))) as Hnd.
    { rewrite reverse_Permutation.
      repeat apply NoDup_cons_2; [..|apply NoDup_seq];
        rewrite ?elem_of_cons elem_of_seq; lia. }
    apply (get_found lru_eviction 0 ret true _ 0%nat (0, vals 0%nat, false)).
    + csimpl. by rewrite fmap_reverse key_nodes_ids.
    + simpl. rewrite lookup_insert_ne; [|lia]. rewrite lookup_delete_ne //.
      rewrite keys_index_lookup decide_True //. lia.
    + apply elem_of_deref; csimpl.
      * by rewrite fmap_reverse key_nodes_ids.
      * right. by left.
  - apply get_not_found. simpl.
    rewrite lookup_insert_ne; [|lia]. apply lookup_delete_eq.
  - unfold exists_. simpl. apply bool_decide_eq_false. intros [? Hl].
    rewrite lookup_insert_ne in Hl; [|lia].
    by rewrite lookup_delete_eq in Hl.
  - unfold exists_. simpl. apply bool_decide_eq_true.
    by rewrite lookup_insert_eq.
Qed.

(** C8. An MRU cache of capacity [N >= 1] (and [N + 1] within [size_t])
    with entries of one unit: the insertion of keys [0..N-1] evicts
    nothing; [get(0)] finds key [0] and moves it to the eviction end, so
    that it is the next entry to be evicted; the insertion of key [N]
    evicts key [0] and not key [1]. *)
Theorem C8_mru_recency vals ret N :
  (1 ≤ N)%nat → Z.of_nat N + 1 < size_t_modulus →
  ∃ s1 s2 s,
    insert_keys mru_eviction vals N (cache_new (Z.of_nat N) false) = Some s1 ∧
    (∀ i, (i < N)%nat → exists_ (Z.of_nat i) s1 = true) ∧
    get mru_eviction 0 ret true s1 = Some (0, vals 0%nat, s2) ∧
    last (eviction_list s2) = Some (0%nat, (0, vals 0%nat, false)) ∧
    add mru_eviction (Z.of_nat N) (vals N) false s2 = Some s ∧
    recency_scenario mru_eviction vals ret N = Some s ∧
    get mru_eviction 0 ret true s = Some (-1, ret, s) ∧
    exists_ 0 s = false ∧
    (∃ s', get mru_eviction 1 ret true s = Some (0, vals 1%nat, s')) ∧
    exists_ 1 s = true.
Proof.
  intros HN1 HN. destruct N as [|m]; [lia|].
  set (N := S m) in *.
  assert (N = S m) as HNeq by done. clearbody N.
  pose proof (insert_keys_filled mru_eviction vals N N) as Hins.
  pose proof (get_filled mru_eviction vals ret N m HNeq) as Hget.
  pose proof (add_touched_mru vals N m HNeq HN) as Hadd.
  assert (∃ it, (<[Z.of_nat N := N]> (delete 0 (keys_index N)) : gmap Z iterator)
                !! 1 = Some it ∧
    deref it ((key_node vals <$> seq 1 m) ++ [key_node vals N])
    = Some (1, vals 1%nat, false)) as (it1 & Hk1 & He1).
  { destruct m as [|m].
    - subst N. exists 1%nat. split; [by rewrite lookup_insert_eq|done].
    - exists 1%nat. split; [|done].
      rewrite lookup_insert_ne; [|lia]. rewrite lookup_delete_ne //.
      rewrite keys_index_lookup decide_True //. lia. }
  eexists _, _, _. split_and!.
  - apply Hins; lia.
  - intros i Hi. by apply filled_exists.
  - apply Hget.
  - simpl. by rewrite last_snoc.
  - apply Hadd.
  - unfold recency_scenario. rewrite Hins; [|lia..].
    cbn [mbind option_bind]. rewrite Hget. cbn [mbind option_bind].
    apply Hadd.
  - apply get_not_found. simpl.
    rewrite lookup_insert_ne; [|lia]. apply lookup_delete_eq.
  - unfold exists_. simpl. apply bool_decide_eq_false. intros [? Hl].
    rewrite lookup_insert_ne in Hl; [|lia].
    by rewrite lookup_delete_eq in Hl.
  - apply (get_found mru_eviction 1 ret true _ it1 (1, vals 1%nat, false));
      [|done..].
    simpl. rewrite fmap_app key_nodes_ids /= HNeq -(seq_S m 1).
    apply NoDup_seq.
  - unfold exists_. simpl. apply bool_decide_eq_true. by rewrite Hk1.
Qed.
End recency_claims.

Section recency_examples.
Local Existing Instance size_calc_unit.

(** C7 as the claim states it, at capacity 1: the only entry, key [0],
    is the one evicted. *)
Lemma C7_lru_recency_counterexample :
  ∃ s : cache Z Z,
    recency_scenario lru_eviction test_values 0 1 = Some s ∧
    get lru_eviction 0 0 true s = Some (-1, 0, s) ∧
    exists_ 0 s = false.
Proof. eexists. split_and!; reflexivity. Qed.

(** C7 (amended) on the test "Evict the Least Recently Accessed", at
    capacity 1024. *)
Lemma C7_lru_recency_witness :
  (2 ≤ 1024)%nat ∧ Z.of_nat 1024 + 1 < size_t_modulus ∧
  ∃ s : cache Z Z,
    recency_scenario lru_eviction test_values 0 1024 = Some s ∧
    (∃ s', get lru_eviction 0 0 true s = Some (0, test_values 0, s')) ∧
    get lru_eviction 1 0 true s = Some (-1, 0, s).
Proof.
  assert (2 ≤ 1024)%nat as Hle by lia.
  assert (Z.of_nat 1024 + 1 < size_t_modulus) as Hlt by by_computation.
  split; [exact Hle|]. split; [exact Hlt|].
  destruct (C7_lru_recency test_values 0 1024 Hle Hlt)
    as (s1 & s2 & s & _ & _ & _ & _ & _ & Hs & Hget0 & Hget1 & _).
  exists s. split; [exact Hs|]. split; [exact Hget0|exact Hget1].
Defined.

(** C8 at capacity 1024. *)
Lemma C8_mru_recency_witness :
  (1 ≤ 1024)%nat ∧ Z.of_nat 1024 + 1 < size_t_modulus ∧
  ∃ s : cache Z Z,
    recency_scenario mru_eviction test_values 0 1024 = Some s ∧
    get mru_eviction 0 0 true s = Some (-1, 0, s) ∧
    (∃ s', get mru_eviction 1 0 true s = Some (0, test_values 1, s')).
Proof.
  assert (1 ≤ 1024)%nat as Hle by lia.
  assert (Z.of_nat 1024 + 1 < size_t_modulus) as Hlt by by_computation.
  split; [exact Hle|]. split; [exact Hlt|].
  destruct (C8_mru_recency test_values 0 1024 Hle Hlt)
    as (s1 & s2 & s & _ & _ & _ & _ & _ & Hs & Hget0 & _ & Hget1 & _).
  exists s. split; [exact Hs|]. split; [exact Hget0|exact Hget1].
Defined.
End recency_examples.

(** ** [merge] on a key that is present (C9, C10) *)

Section merge_claims.
Context {K : Type} `{Countable K} {V : Type} `{size_calc V} `{value_ops V}.
Implicit Types (s : cache K V) (E : eviction).

Lemma merge_combined_perm E it e value s :
  eviction_list (merge_combined E it e value s) ≡ₚ
  (it, (get0 e, merged_value (max_size s) (get1 e) value, get2 e))
    :: unlink it (eviction_list s).
Proof.
  destruct E; simpl; [done|]. symmetry. apply Permutation_cons_append.
Qed.

Lemma merge_combined_deref E it e value s :
  NoDup (eviction_list s).*1 → deref it (eviction_list s) = Some e →
  deref it (eviction_list (merge_combined E it e value s)) =
  Some (get0 e, merged_value (max_size s) (get1 e) value, get2 e).
Proof.
  intros Hnd He. destruct E; simpl; [by rewrite decide_True|].
  apply deref_snoc. by eapply unlink_ids.
Qed.

Lemma merge_combined_current E it e value s :
  trim_exact → accounted s →
  current_size (merge_combined E it e value s) =
  to_size_t (current_size s
             + calc_size (merged_value (max_size s) (get1 e) value)
             - calc_size (get1 e)).
Proof.
  intros Htrim Hacc. simpl. rewrite merged_size_eq //.
  repeat case_bool_decide.
  - f_equal. lia.
  - f_equal. lia.
  - rewrite Hacc -{1}(to_size_t_idemp (total_size _)). f_equal. lia.
Qed.

(** What the loop of [fit_] has done when it returns: it has popped a
    back part of the list and erased the keys of these nodes from the
    index, the cache is within its capacity, and the loop has popped
    nothing it did not have to: before the last pop [current_size] was
    above [max_size]. *)
Lemma fit_erase_outcome s s' :
  0 ≤ current_size s < size_t_modulus → fit_ _erase s = Some s' →
  within_budget s' ∧
  ∃ evicted, eviction_list s = eviction_list s' ++ evicted ∧
    (∀ n, n ∈ evicted → cache_map s' !! get0 n.2 = None) ∧
    (evicted = [] → s' = s) ∧
    ∀ n rest, evicted = n :: rest →
      0 < max_size s ∧
      max_size s < to_size_t (current_size s' + calc_size (get1 n.2)).
Proof.
  intros Hrange Hfit. split; [by eapply fit_within_budget|].
  apply (fit_invariant (λ s1,
    0 ≤ current_size s1 < size_t_modulus ∧ max_size s1 = max_size s ∧
    ∃ evicted, eviction_list s = eviction_list s1 ++ evicted ∧
      (∀ n, n ∈ evicted → cache_map s1 !! get0 n.2 = None) ∧
      (evicted = [] → s1 = s) ∧
      ∀ n rest, evicted = n :: rest →
        0 < max_size s ∧
        max_size s < to_size_t (current_size s1 + calc_size (get1 n.2))))
    in Hfit as [(_ & _ & ?) _]; [done| |].
  - intros s1 s2 (Hr1 & Hmax & ev & Hev & Hgone & _ & _) Hob
      (l & n & Hl & ->)%evict_back_inv.
    simpl. split; [apply to_size_t_range|]. split; [done|].
    exists (n :: ev). split_and!.
    + by rewrite Hev Hl -assoc.
    + intros n' [->|Hin]%elem_of_cons; unfold _erase.
      * apply lookup_delete_eq.
      * apply lookup_delete_None. right. by apply Hgone.
    + done.
    + intros n0 rest [= <- <-].
      rewrite to_size_t_plus_l Z.sub_add to_size_t_small //.
      unfold over_budget in Hob. rewrite Hmax in Hob.
      apply andb_true_iff in Hob
        as [?%bool_decide_eq_true ?%bool_decide_eq_true].
      done.
  - split; [done|]. split; [done|]. exists [].
    split_and!; [by rewrite app_nil_r|by intros n ?%elem_of_nil|done..].
Qed.

(** The loop of [fit_] does not pop the node at the front of the list
    when the value of that node alone is within the capacity. *)
Lemma fit_erase_keeps_front s s' it e rest :
  accounted s → eviction_list s = (it, e) :: rest →
  (0 < max_size s → calc_size (get1 e) ≤ max_size s) →
  fit_ _erase s = Some s' →
  ∃ rest', eviction_list s' = (it, e) :: rest'.
Proof.
  intros Hacc Hl Hfits Hfit.
  apply (fit_invariant (λ s1,
    accounted s1 ∧ max_size s1 = max_size s ∧
    ∃ rest', eviction_list s1 = (it, e) :: rest'))
    in Hfit as [(_ & _ & ?) _]; [done| |by eauto].
  intros s1 s2 (Hacc1 & Hmax & rest1 & Hl1) Hob Hev.
  apply accounted_with_0 in Hacc1 as Hacc2.
  apply (evict_back_accounted_with _ 0 _ _ Hacc2) in Hev as Hacc3.
  apply accounted_with_0 in Hacc3.
  apply evict_back_inv in Hev as (l & n & Hln & ->). simpl.
  split; [done|]. split; [done|].
  destruct l as [|n0 l].
  - exfalso. rewrite Hl1 in Hln. simplify_eq/=.
    unfold over_budget in Hob. rewrite Hacc1 Hl1 Hmax /= Z.add_0_r in Hob.
    apply andb_true_iff in Hob
      as [Hpos%bool_decide_eq_true Hover%bool_decide_eq_true].
    specialize (Hfits Hpos). pose proof (calc_size_range (get1 e)).
    rewrite to_size_t_small in Hover; lia.
  - rewrite Hl1 in Hln. simplify_eq/=. by eauto.
Qed.

(** C9. On a cache that is not in strong-association mode and holds key
    [k], [merge(k, v, dirty)] combines the value of the entry with [v]
    through the [merge] of the value type; if [max_size > 0] and the
    combined size exceeds it, the value is trimmed and its size is then
    exactly [max_size]; [current_size] changes by the new size minus the
    old one; the entry goes to the front (LRU) or to the back (MRU) of
    the eviction list; the loop of [fit_] then runs and the operation
    returns: the cache returned is the combined one less the nodes at the
    back that the loop has popped, their keys erased from the index; it
    is well formed, accounted and within [max_size], and the loop has
    popped a node only with [current_size] above [max_size]. *)
Theorem C9_merge_existing E k v d s it e :
  trim_exact → wf s → accounted s → _strong s = false →
  cache_map s !! k = Some it → deref it (eviction_list s) = Some e →
  let combined := value_merge (get1 e) v in
  let stored :=
    if bool_decide (0 < max_size s ∧ max_size s < calc_size combined)
    then value_trim combined (max_size s) else combined in
  let touched :=
    match E with
    | lru_eviction =>
        (it, (get0 e, stored, get2 e)) :: unlink it (eviction_list s)
    | mru_eviction =>
        unlink it (eviction_list s) ++ [(it, (get0 e, stored, get2 e))]
    end in
  let combined_cache :=
    mk_cache touched (next_node s)
      (to_size_t (current_size s + calc_size stored - calc_size (get1 e)))
      (max_size s) (cache_map s) (_strong s) in
  (0 < max_size s → max_size s < calc_size combined →
   calc_size stored = max_size s) ∧
  (0 < max_size s → calc_size stored ≤ max_size s) ∧
  deref it touched = Some (get0 e, stored, get2 e) ∧
  ∃ s', merge E k v d s = Some s' ∧
    fit_ _erase combined_cache = Some s' ∧
    wf s' ∧ accounted s' ∧ within_budget s' ∧
    max_size s' = max_size s ∧
    ∃ evicted, touched = eviction_list s' ++ evicted ∧
      (∀ n, n ∈ evicted → exists_ (get0 n.2) s' = false) ∧
      (∀ n, n ∈ eviction_list s' → cache_map s' !! get0 n.2 = Some n.1) ∧
      (evicted = [] → s' = combined_cache) ∧
      ∀ n rest, evicted = n :: rest →
        0 < max_size s ∧
        max_size s < to_size_t (current_size s' + calc_size (get1 n.2)).
Proof.
  intros Htrim Hwf Hacc Hs Hk He combined stored touched combined_cache.
  assert (stored = merged_value (max_size s) (get1 e) v) as Hstored.
  { unfold stored, merged_value, merge_trims, combined.
    case_bool_decide as Hc.
    - destruct Hc. by rewrite !bool_decide_eq_true_2.
    - destruct (bool_decide (0 < max_size s)) eqn:H0m; simpl; [|done].
      apply bool_decide_eq_true in H0m.
      rewrite bool_decide_eq_false_2 //. naive_solver. }
  assert (combined_cache = merge_combined E it e v s) as Hcc.
  { unfold combined_cache.
    rewrite Hstored -(merge_combined_current E it e v s) //.
    unfold touched. by rewrite Hstored. }
  assert (merge E k v d s = fit_ _erase combined_cache) as Hm.
  { rewrite Hcc. apply merge_present; [done..|by destruct Hwf|done]. }
  assert (wf combined_cache) as Hwfc.
  { rewrite Hcc. by apply merge_combined_wf. }
  assert (accounted combined_cache) as Haccc.
  { rewrite Hcc. by apply merge_combined_accounted. }
  split_and!.
  - intros H0m Hm'. rewrite Hstored merged_size_eq //.
    unfold merged_size, merge_trims. by rewrite !bool_decide_eq_true_2.
  - intros H0m. rewrite Hstored merged_size_eq //.
    by apply merged_size_fits.
  - pose proof (merge_combined_deref E it e v s) as Hd.
    rewrite -Hcc -Hstored in Hd. apply Hd; [by destruct Hwf|done].
  - destruct (fit_accounted_is_Some _erase 0 combined_cache) as [s' Hfit].
    { by apply accounted_with_0. }
    { intros ?. change (to_size_t 0) with 0. simpl in *. lia. }
    assert (wf s') as Hwf' by by eapply fit_erase_wf.
    exists s'. split; [by rewrite Hm|]. split; [done|]. split; [done|].
    split.
    { apply accounted_with_0. eapply fit_accounted_with; [|done].
      by apply accounted_with_0. }
    apply fit_erase_frame in Hfit as Hfr. destruct Hfr as (Hmax & _).
    apply fit_erase_outcome in Hfit
      as (Hwb & ev & Hev & Hgone & Hnil & Hlast);
      [|simpl; apply to_size_t_range].
    split; [done|]. split; [done|].
    exists ev. split_and!; try done.
    + intros n Hn. unfold exists_. apply bool_decide_eq_false.
      rewrite (Hgone n Hn). by intros [].
    + intros [it' [[k' v'] d']] Hn. apply (wf_index _ Hwf'). eauto.
Qed.

(** C10 (amended). On a cache that is not in strong-association mode and
    holds key [k], [merge(k, v, dirty)] does not depend on [dirty] and
    returns. The entry of [k] keeps its node, its key and its dirty flag
    and holds the combined value when it is still in the cache: always
    under LRU, where it is at the front, and under MRU when the combined
    cache is within [max_size]. Under MRU the entry is at the back, and
    when the combined cache is above [max_size] the loop of [fit_] that
    ends [merge] evicts it first: the key is then gone. Every other entry
    left is an entry of the cache before, unchanged; the index has only
    lost keys, and [max_size] and the association mode are what they
    were. *)
Theorem C10_merge_keeps_key_and_dirty E k v d d' s it v_old d_old :
  trim_exact → wf s → accounted s → _strong s = false →
  cache_map s !! k = Some it →
  deref it (eviction_list s) = Some (k, v_old, d_old) →
  let stored := merged_value (max_size s) v_old v in
  let cur :=
    to_size_t (current_size s + calc_size stored - calc_size v_old) in
  merge E k v d s = merge E k v d' s ∧
  ∃ s', merge E k v d s = Some s' ∧
    (E = lru_eviction ∨ ¬ (0 < max_size s ∧ max_size s < cur) →
     cache_map s' !! k = Some it ∧
     deref it (eviction_list s') = Some (k, stored, d_old)) ∧
    (E = mru_eviction → 0 < max_size s → max_size s < cur →
     cache_map s' !! k = None ∧ it ∉ (eviction_list s').*1) ∧
    (∀ it' e', it' ≠ it → (it', e') ∈ eviction_list s' →
               (it', e') ∈ eviction_list s) ∧
    cache_map s' ⊆ cache_map s ∧
    max_size s' = max_size s ∧ _strong s' = _strong s.
Proof.
  intros Htrim Hwf Hacc Hs Hk He stored cur. pose proof Hwf as [Hnd _ _].
  rewrite !(merge_present E k v _ s it (k, v_old, d_old)) //.
  split; [done|].
  set (pre := merge_combined E it (k, v_old, d_old) v s).
  assert (wf pre) as Hwfpre by by apply merge_combined_wf.
  assert (accounted pre) as Haccpre by by apply merge_combined_accounted.
  assert (current_size pre = cur) as Hcur.
  { unfold pre. by rewrite merge_combined_current. }
  assert (max_size pre = max_size s) as Hmaxpre by done.
  pose proof (merge_combined_deref E it (k, v_old, d_old) v s Hnd He) as Hd.
  pose proof (merge_combined_perm E it (k, v_old, d_old) v s) as Hperm.
  fold pre in Hd, Hperm. change (get0 (k, v_old, d_old)) with k in Hd, Hperm.
  change (get1 (k, v_old, d_old)) with v_old in Hd, Hperm.
  change (get2 (k, v_old, d_old)) with d_old in Hd, Hperm.
  fold stored in Hd, Hperm.
  assert (cache_map pre = cache_map s) as Hmappre by done.
  assert (_strong pre = _strong s) as Hstrpre by done.
  assert (match E with
          | lru_eviction =>
              eviction_list pre
              = (it, (k, stored, d_old)) :: unlink it (eviction_list s)
          | mru_eviction =>
              eviction_list pre
              = unlink it (eviction_list s) ++ [(it, (k, stored, d_old))]
          end) as Hlpre by by destruct E.
  assert (calc_size stored = merged_size (max_size s) v_old v) as Hsz
    by by apply merged_size_eq.
  clearbody pre.
  destruct (fit_accounted_is_Some _erase 0 pre) as [s' Hfit].
  { by apply accounted_with_0. }
  { intros ?. change (to_size_t 0) with 0. lia. }
  assert (wf s') as Hwf' by by eapply fit_erase_wf.
  exists s'. split; [done|].
  apply fit_erase_frame in Hfit as Hfr.
  destruct Hfr as (Hmax & Hstr & _ & [ev Hev] & Hsub).
  assert (∀ n, n ∈ eviction_list s' → n ∈ eviction_list pre) as Hpres.
  { intros n ?. rewrite Hev. apply elem_of_app. by left. }
  assert (it ∈ (eviction_list s').*1 →
          cache_map s' !! k = Some it ∧
          deref it (eviction_list s') = Some (k, stored, d_old)) as Hkept.
  { intros ([it0 e'] & -> & Hin)%list_elem_of_fmap.
    simpl in *. apply Hpres in Hin as Hpre.
    apply elem_of_deref in Hpre; [|by destruct Hwfpre].
    rewrite Hd in Hpre. simplify_eq. split.
    - apply (wf_index _ Hwf'). eauto.
    - apply elem_of_deref; [by destruct Hwf'|done]. }
  split_and!.
  - intros [->|Hwithin].
    + destruct (fit_erase_keeps_front pre s' it (k, stored, d_old)
                  (unlink it (eviction_list s))) as [rest' Hl'];
        [done..| |done|].
      { rewrite Hmaxpre. intros Hpos. change (get1 (k, stored, d_old))
          with stored. rewrite Hsz. by apply merged_size_fits. }
      apply Hkept. rewrite Hl' fmap_cons. by left.
    + assert (over_budget pre = false) as Hob.
      { unfold over_budget. rewrite Hmaxpre Hcur.
        destruct (decide (0 < max_size s)) as [Hpos|Hpos].
        - rewrite (bool_decide_eq_false_2 (max_size s < cur))
            ?andb_false_r //. lia.
        - by rewrite bool_decide_eq_false_2. }
      rewrite fit_unfold Hob in Hfit. simplify_eq.
      by rewrite Hmappre Hk.
  - intros -> Hpos Hover.
    assert (it ∉ (eviction_list s').*1) as Hnin.
    { rewrite fit_unfold in Hfit.
      assert (over_budget pre = true) as Hob.
      { unfold over_budget. rewrite Hmaxpre Hcur.
        by rewrite !bool_decide_eq_true_2. }
      rewrite Hob (evict_back_snoc _ _ _ _ Hlpre) /= in Hfit.
      apply fit_erase_frame in Hfit as (_ & _ & _ & [ev' Hev'] & _).
      simpl in Hev'. intros Hin.
      apply (unlink_ids it (eviction_list s) (k, v_old, d_old)); [done..|].
      rewrite Hev' fmap_app elem_of_app. by left. }
    split; [|done]. apply eq_None_not_Some. intros [it0 Hit0].
    assert (it0 = it) as ->.
    { eapply lookup_weaken in Hit0; [|done]. rewrite Hmappre in Hit0.
      congruence. }
    apply (wf_index _ Hwf') in Hit0 as (v0 & d0 & Hin).
    apply Hnin. by apply (list_elem_of_fmap_2 fst) in Hin.
  - intros it' e' Hne Hin. apply Hpres in Hin as Hpre.
    rewrite Hperm in Hpre.
    apply elem_of_cons in Hpre as [?|Hpre]; [by simplify_eq|].
    rewrite (unlink_perm _ _ _ He). by right.
  - by rewrite -Hmappre.
  - by rewrite Hmax.
  - by rewrite Hstr.
Qed.
End merge_claims.

Section merge_examples.
Local Existing Instance size_calc_string.
Local Existing Instance string_ops.

(** C9 on the LRU cache of capacity 19 holding "abcdefg" (key 1, at the
    front) and "0123456789" (key 0): merged with itself the value of key 0
    has 20 characters and is trimmed to 19; its node goes to the front and
    the loop of [fit_] pops the node of key 1. *)
Lemma C9_merge_existing_witness :
  let s := string_pair_cache lru_eviction in
  let stored := "0123456789012345678"%string in
  let touched := [(0%nat, (0, stored, false));
                  (1%nat, (1, "abcdefg"%string, false))] in
  let combined_cache :=
    mk_cache touched 2%nat 26 19 (<[1 := 1%nat]> {[0 := 0%nat]}) false in
  trim_exact ∧ wf s ∧ accounted s ∧ _strong s = false ∧
  cache_map s !! 0 = Some 0%nat ∧
  deref 0%nat (eviction_list s) = Some (0, "0123456789"%string, false) ∧
  calc_size stored = max_size s ∧
  deref 0%nat touched = Some (0, stored, false) ∧
  ∃ s', merge lru_eviction 0 "0123456789"%string false s = Some s' ∧
    fit_ _erase combined_cache = Some s' ∧
    wf s' ∧ accounted s' ∧ within_budget s' ∧
    max_size s' = max_size s ∧
    ∃ evicted, touched = eviction_list s' ++ evicted ∧
      (∀ n, n ∈ evicted → exists_ (get0 n.2) s' = false) ∧
      (∀ n, n ∈ eviction_list s' → cache_map s' !! get0 n.2 = Some n.1) ∧
      (evicted = [] → s' = combined_cache) ∧
      ∀ n rest, evicted = n :: rest →
        0 < max_size s ∧
        max_size s < to_size_t (current_size s' + calc_size (get1 n.2)).
Proof.
  intros s stored touched combined_cache.
  pose proof (string_pair_cache_invariant lru_eviction) as (Hwf & Hacc & _).
  pose proof (C9_merge_existing lru_eviction 0 "0123456789"%string false
                s 0%nat (0, "0123456789"%string, false)
                string_trim_exact Hwf Hacc eq_refl eq_refl eq_refl)
    as (Htrimmed & _ & Hderef & Hmerge).
  split; [exact string_trim_exact|]. split; [exact Hwf|].
  split; [exact Hacc|]. do 3 (split; [by_computation|]).
  split; [apply Htrimmed; by_computation|].
  split; [exact Hderef|]. exact Hmerge.
Defined.

(** C10 as the claim states it, on the MRU cache of capacity 19 holding
    "0123456789" (key 0) and "abcdefg" (key 1): [merge(0, "xyz")] makes
    the value of key 0 13 characters long, 20 in all; the node of key 0
    is at the back and the loop of [fit_] pops it. *)
Lemma C10_merge_keeps_key_and_dirty_counterexample :
  ∃ s' : cache Z string,
    add mru_eviction 0 "0123456789"%string false (cache_new 19 false)
    = Some string_test_cache ∧
    add mru_eviction 1 "abcdefg"%string false string_test_cache
    = Some (string_pair_cache mru_eviction) ∧
    merge mru_eviction 0 "xyz"%string false (string_pair_cache mru_eviction)
    = Some s' ∧
    eviction_list s' = [(1%nat, (1, "abcdefg"%string, false))] ∧
    exists_ 0 s' = false ∧
    get mru_eviction 0 EmptyString true s' = Some (-1, EmptyString, s').
Proof. eexists. split_and!; reflexivity. Qed.

(** C10 (amended) on the LRU cache holding the same entries: the entry of
    key 0 keeps its node and its flag and holds "0123456789xyz". *)
Lemma C10_merge_keeps_key_and_dirty_witness :
  let s := string_pair_cache lru_eviction in
  trim_exact ∧ wf s ∧ accounted s ∧ _strong s = false ∧
  cache_map s !! 0 = Some 0%nat ∧
  deref 0%nat (eviction_list s) = Some (0, "0123456789"%string, false) ∧
  merge lru_eviction 0 "xyz"%string true s
  = merge lru_eviction 0 "xyz"%string false s ∧
  ∃ s', merge lru_eviction 0 "xyz"%string true s = Some s' ∧
    cache_map s' !! 0 = Some 0%nat ∧
    deref 0%nat (eviction_list s') = Some (0, "0123456789xyz"%string, false).
Proof.
  intros s.
  pose proof (string_pair_cache_invariant lru_eviction) as (Hwf & Hacc & _).
  pose proof (C10_merge_keeps_key_and_dirty lru_eviction 0 "xyz"%string
                true false s 0%nat "0123456789"%string false
                string_trim_exact Hwf Hacc eq_refl eq_refl eq_refl)
    as (Hdirty & s' & Hmerge & Hkept & _).
  split; [exact string_trim_exact|]. split; [exact Hwf|].
  split; [exact Hacc|]. do 3 (split; [by_computation|]).
  split; [exact Hdirty|].
  exists s'. split; [exact Hmerge|]. apply Hkept. by left.
Defined.
End merge_examples.

(** * Further properties of the public interface *)

(** ** Nodes, index and entries *)

Section interface_facts.
Context {K : Type} `{Countable K} {V : Type} `{size_calc V}.
Implicit Types (s : cache K V) (l : eviction_type K V) (E : eviction).

Lemma exists__true key s :
  exists_ key s = true ↔ is_Some (cache_map s !! key).
Proof. unfold exists_. apply bool_decide_eq_true. Qed.

Lemma exists__false key s :
  exists_ key s = false ↔ cache_map s !! key = None.
Proof.
  unfold exists_. by rewrite bool_decide_eq_false eq_None_not_Some.
Qed.

Lemma unlink_split it l e :
  deref it l = Some e →
  ∃ l1 l2, l = l1 ++ (it, e) :: l2 ∧ unlink it l = l1 ++ l2.
Proof.
  induction l as [|[i e'] l IH]; simpl; [done|].
  case_decide; simplify_eq/=.
  - intros [= ->]. by exists [], l.
  - intros (l1 & l2 & Hl & Hu)%IH. exists ((i, e') :: l1), l2.
    by rewrite {1}Hl Hu.
Qed.

Lemma deref_unlink_ne it it' l :
  it' ≠ it → deref it' (unlink it l) = deref it' l.
Proof.
  intros Hne. induction l as [|[i e'] l IH]; simpl; [done|].
  repeat (case_decide; simplify_eq/=); done.
Qed.

Lemma deref_app_ne it' l (n : node K V) :
  it' ≠ n.1 → deref it' (l ++ [n]) = deref it' l.
Proof.
  intros Hne. induction l as [|[i e'] l IH]; simpl.
  - by rewrite decide_False.
  - by case_decide.
Qed.

Lemma filter_all {A} (P : A → Prop) `{∀ x, Decision (P x)} (l : list A) :
  Forall P l → filter P l = l.
Proof.
  induction 1 as [|x l HP _ IH]; [done|].
  by rewrite filter_cons_True // IH.
Qed.

Lemma wf_nodes_distinct s k k' it it' :
  wf s → cache_map s !! k = Some it → cache_map s !! k' = Some it' →
  k ≠ k' → it ≠ it'.
Proof.
  intros Hwf Hk Hk' Hne ->.
  destruct (wf_lookup_deref s k it') as (v & d & He); [done..|].
  destruct (wf_lookup_deref s k' it') as (v' & d' & He'); [done..|].
  congruence.
Qed.

(** The keys of the entries of a well-formed cache are pairwise
    distinct. *)
Lemma wf_keys_nodup s :
  wf s → NoDup ((λ n : node K V, get0 n.2) <$> eviction_list s).
Proof.
  intros Hwf. pose proof Hwf as [Hnd _ _].
  apply NoDup_fmap_2_strong; [|by eapply NoDup_fmap_1].
  intros [it1 [[k1 v1] d1]] [it2 [[k2 v2] d2]] H1 H2. rewrite /get0 /=.
  intros <-.
  assert (it1 = it2) as <- by by eapply wf_key_unique.
  apply (elem_of_deref _ _ _ Hnd) in H1, H2. congruence.
Qed.

(** The index, listed, is the list of (key, node) pairs of the eviction
    list up to order. *)
Lemma wf_index_perm s :
  wf s →
  map_to_list (cache_map s)
  ≡ₚ (λ n : node K V, (get0 n.2, n.1)) <$> eviction_list s.
Proof.
  intros Hwf. pose proof Hwf as [Hnd _ Hix].
  apply NoDup_Permutation.
  - apply NoDup_map_to_list.
  - apply (NoDup_fmap_1 fst). rewrite -list_fmap_compose.
    by apply wf_keys_nodup.
  - intros [k it]. rewrite elem_of_map_to_list (Hix k it) list_elem_of_fmap.
    split.
    + intros (v & d & Hin). by exists (it, (k, v, d)).
    + intros ([it' [[k' v] d]] & [= -> ->] & Hin). by exists v, d.
Qed.

Lemma entry_of_Some key s e :
  entry_of key s = Some e ↔
  ∃ it, cache_map s !! key = Some it ∧ deref it (eviction_list s) = Some e.
Proof.
  unfold entry_of. destruct (cache_map s !! key) as [it|]; simpl.
  - split; [by eauto|]. by intros (? & [= <-] & ?).
  - split; [done|]. by intros (? & ? & _).
Qed.

(** An untracked [get] reads the entry the key leads to. *)
Lemma get_entry_of E key ret s :
  wf s →
  get E key ret false s
  = Some match entry_of key s with
         | Some e => (0, get1 e, s)
         | None => (-1, ret, s)
         end.
Proof.
  intros Hwf. unfold get, entry_of.
  destruct (cache_map s !! key) as [it|] eqn:Hk; simpl; [|done].
  destruct (wf_lookup_deref s key it) as (v & d & ->); done.
Qed.

Lemma remove_dirty_is_Some key dirty s :
  wf s → is_Some (remove_dirty key dirty s).
Proof.
  intros Hwf. unfold remove_dirty.
  destruct (cache_map s !! key) as [it|] eqn:Hk; [|done].
  destruct (wf_lookup_deref s key it) as (v & d & He); [done..|].
  rewrite He /=. destruct (dirty && _); [done|].
  unfold remove_, list_erase. simpl. by rewrite He.
Qed.

Lemma remove_dirty_clean key s b s' :
  remove_dirty key false s = Some (b, s') → b = true.
Proof.
  intros [(_ & -> & _)|(it & e & _ & _ & Hr)]%remove_dirty_inv; [done|].
  simpl in Hr. by destruct Hr.
Qed.

(** [remove(key, dirty)] leaves the entries of the other keys alone. *)
Lemma remove_dirty_entry_of_ne key dirty key' s b s' :
  wf s → remove_dirty key dirty s = Some (b, s') → key' ≠ key →
  entry_of key' s' = entry_of key' s.
Proof.
  intros Hwf [(_ & _ & ->)|(it & e & Hk & He & Hr)]%remove_dirty_inv Hne;
    [done|].
  destruct (dirty && negb (get2 e)); destruct Hr as [_ ->]; [done|].
  unfold entry_of. simpl. rewrite lookup_delete_ne //.
  destruct (cache_map s !! key') as [it'|] eqn:Hk'; simpl; [|done].
  apply deref_unlink_ne. by eapply wf_nodes_distinct.
Qed.

(** The eviction list after [remove(key, dirty)] has removed: the entry
    of [key] is out, the others are in their order. *)
Lemma remove_dirty_filter key dirty s s' :
  wf s → remove_dirty key dirty s = Some (true, s') →
  eviction_list s'
  = filter (λ n : node K V, get0 n.2 ≠ key) (eviction_list s).
Proof.
  intros Hwf Hr. pose proof Hwf as [Hnd _ Hix].
  apply remove_dirty_inv in Hr as [(Hk & _ & ->)|(it & e & Hk & He & Hr)].
  - symmetry. apply filter_all. apply Forall_forall.
    intros [it [[k v] d]] Hin. rewrite /get0 /=. intros ->.
    assert (cache_map s !! key = Some it) by (apply Hix; eauto).
    congruence.
  - destruct (dirty && negb (get2 e)); destruct Hr as [? ->]; [done|]. simpl.
    apply unlink_split in He as Hsp. destruct Hsp as (l1 & l2 & Hl & ->).
    pose proof (wf_deref_key s key it e Hwf Hk He) as Hkey.
    rewrite Hl filter_app filter_cons_False; last first.
    { rewrite Hkey. by intros []. }
    assert (∀ n, n ∈ l1 ++ l2 → get0 n.2 ≠ key) as Hother.
    { intros [it' [[k v] d]] Hin. rewrite /get0 /=. intros ->.
      assert (it' = it) as ->.
      { destruct e as [[k0 v0] d0]. rewrite /get0 /= in Hkey. subst k0.
        apply (wf_key_unique s it' it key v d v0 d0); [done|..].
        - rewrite Hl. rewrite elem_of_app elem_of_cons.
          apply elem_of_app in Hin. tauto.
        - by apply deref_elem_of. }
      rewrite Hl in Hnd. rewrite fmap_app fmap_cons /= in Hnd.
      apply NoDup_app in Hnd as (_ & Hdisj & [Hnin _]%NoDup_cons).
      apply elem_of_app in Hin as [Hin|Hin];
        apply (list_elem_of_fmap_2 fst) in Hin; simpl in Hin.
      - by apply (Hdisj it); [|left].
      - done. }
    rewrite !filter_all //; apply Forall_forall; intros n Hin;
      apply Hother; rewrite elem_of_app; auto.
Qed.

Lemma fit_within (c : erase_map) s : over_budget s = false → fit_ c s = Some s.
Proof. intros Hob. by rewrite fit_unfold Hob. Qed.

(** The keys of the nodes the loop of [fit_] pops are erased from the
    index. *)
Lemma fit_erase_evicted s s' :
  fit_ _erase s = Some s' →
  ∃ evicted, eviction_list s = eviction_list s' ++ evicted ∧
    ∀ n, n ∈ evicted → cache_map s' !! get0 n.2 = None.
Proof.
  intros Hfit.
  apply (fit_invariant (λ s1,
    ∃ evicted, eviction_list s = eviction_list s1 ++ evicted ∧
      ∀ n, n ∈ evicted → cache_map s1 !! get0 n.2 = None)) in Hfit as [? _];
    [done| |].
  - intros s1 s2 (ev & Hev & Hgone) _ (l & n & Hl & ->)%evict_back_inv.
    exists (n :: ev). simpl. split; [by rewrite Hev Hl -assoc|].
    intros n' [->|Hin]%elem_of_cons; unfold _erase.
    + apply lookup_delete_eq.
    + apply lookup_delete_None. right. by apply Hgone.
  - exists []. split; [by rewrite app_nil_r|]. by intros n ?%elem_of_nil.
Qed.

(** With room for the value the loop of [fit_] does nothing and [add_]
    just pushes. *)
Lemma add_insert_room E key value dirty s :
  wf s → cache_map s !! key = None →
  (0 < max_size s →
   to_size_t (current_size s + calc_size value) ≤ max_size s) →
  ∃ s1, add_insert E key value dirty s = Some s1 ∧ wf s1 ∧
    _strong s1 = _strong s ∧ max_size s1 = max_size s ∧
    eviction_list s1
    = match E with
      | lru_eviction => (next_node s, (key, value, dirty)) :: eviction_list s
      | mru_eviction => eviction_list s ++ [(next_node s, (key, value, dirty))]
      end ∧
    current_size s1 = to_size_t (current_size s + calc_size value) ∧
    entry_of key s1 = Some (key, value, dirty) ∧
    ∀ key', key' ≠ key → entry_of key' s1 = entry_of key' s.
Proof.
  intros Hwf Hk Hroom.
  assert (add_insert E key value dirty s
    = Some (with_map (<[key := next_node s]> (cache_map s))
              (push_ E (key, value, dirty)
                 (with_current (to_size_t (current_size s + calc_size value))
                               s)).2)) as Hadd.
  { unfold add_insert. rewrite fit_within; [done|].
    unfold over_budget. simpl.
    destruct (decide (0 < max_size s)) as [Hpos|Hpos].
    - rewrite (bool_decide_eq_false_2 (max_size s < _)) ?andb_false_r //.
      specialize (Hroom Hpos). lia.
    - by rewrite bool_decide_eq_false_2. }
  destruct (add_insert E key value dirty s) as [s1|] eqn:Hs1; [|done].
  assert (wf s1) as Hwf1 by by eapply add_insert_wf.
  exists s1. split_and!; try done.
  - by apply add_insert_frame in Hs1 as [_ ->].
  - by apply add_insert_frame in Hs1 as [-> _].
  - injection Hadd as ->. by destruct E.
  - injection Hadd as ->. by destruct E.
  - destruct (add_insert_lookup _ _ _ _ _ _ Hwf Hs1) as (it & Hk1 & He).
    apply entry_of_Some. eauto.
  - intros key' Hne. injection Hadd as ->. unfold entry_of. simpl.
    rewrite lookup_insert_ne //.
    destruct (cache_map s !! key') as [it'|] eqn:Hk'; simpl; [|done].
    assert (it' ≠ next_node s) as Hfresh.
    { destruct (wf_lookup_deref s key' it') as (v & d & He); [done..|].
      apply deref_elem_of, (list_elem_of_fmap_2 fst) in He.
      apply Hwf in He. simpl in He. lia. }
    destruct E; simpl.
    + by rewrite decide_False.
    + by apply deref_app_ne.
Qed.

Lemma get_all_fold {A} (func : K → V → A → A) l (ml : list (K * iterator))
    (a : A) :
  Forall (λ cur, is_Some (deref cur.2 l)) ml →
  foldl (λ acc cur,
           a' ← acc; e ← deref cur.2 l; Some (func cur.1 (get1 e) a'))
        (Some a) ml
  = Some (foldl (λ acc p, func p.1 p.2 acc) a
                (omap (λ cur, e ← deref cur.2 l; Some (cur.1, get1 e)) ml)).
Proof.
  intros Hall. revert a.
  induction Hall as [|cur ml [e He] _ IH]; intros a; csimpl; [done|].
  rewrite He /=. apply IH.
Qed.

End interface_facts.

Section unit_sizes.
Context {K : Type} `{Countable K} {V : Type}.
Local Existing Instance size_calc_unit.

Lemma total_size_unit (l : eviction_type K V) :
  total_size l = Z.of_nat (length l).
Proof.
  induction l as [|n l IH]; simpl; [done|]. rewrite unit_calc_size IH. lia.
Qed.
End unit_sizes.

Section filled_caches.
Context {V : Type}.
Local Existing Instance size_calc_unit.

(** The caches of the insertion loop of the test suite are states of the
    program. *)
Lemma filled_invariant E (vals : nat → V) N n :
  (n ≤ N)%nat → Z.of_nat N < size_t_modulus →
  invariant (filled E vals N n).
Proof.
  intros Hn HN. induction n as [|n IH].
  - pose proof (insert_keys_filled E vals N 0 Hn HN) as Heq.
    assert (filled E vals N 0 = cache_new (Z.of_nat N) false) as ->.
    { unfold insert_keys in Heq. simpl in Heq. congruence. }
    apply invariant_new.
  - eapply add_invariant; [apply IH; lia|]. apply add_filled; [lia|done].
Qed.
End filled_caches.

(** ** [add] *)

Section add_properties.
Context {K : Type} `{Countable K} {V : Type} `{size_calc V}.
Implicit Types (s : cache K V) (l : eviction_type K V) (E : eviction).

(** X1. On a well-formed cache with its books in order and not in
    strong-association mode, [add(key, value)] of a value that fits the
    capacity returns; the cache is then well formed, accounted and within
    its capacity, [exists(key)] holds and [get(key)] returns [value],
    whether or not the access is tracked. *)
Theorem X1_add_then_get E key value ret do_touch s :
  wf s → accounted s → _strong s = false →
  (0 < max_size s → calc_size value ≤ max_size s) →
  ∃ s', add E key value false s = Some s' ∧
        wf s' ∧ accounted s' ∧ within_budget s' ∧
        exists_ key s' = true ∧
        ∃ s'', get E key ret do_touch s' = Some (0, value, s'').
Proof.
  intros Hwf Hacc Hs Hfits.
  destruct (remove_dirty_is_Some key false s Hwf) as [[b s1] Hr].
  apply remove_dirty_clean in Hr as Hb. subst b.
  apply remove_dirty_frame in Hr as Hfr.
  destruct Hfr as (Hmax & Hs1 & _ & Hk1). specialize (Hk1 eq_refl).
  assert (wf s1) as Hwf1 by by eapply remove_dirty_wf.
  assert (accounted s1) as Hacc1 by by eapply remove_dirty_accounted.
  destruct (add_insert_is_Some E key value false s1) as [s' Hadd];
    [done|by rewrite Hmax|].
  assert (wf s') as Hwf' by by eapply add_insert_wf.
  destruct (add_insert_lookup _ _ _ _ _ _ Hwf1 Hadd) as (it & Hk & He).
  exists s'. split_and!.
  - unfold add. rewrite Hs Hr /=. rewrite add__weak //. congruence.
  - done.
  - by eapply add_insert_accounted.
  - by eapply add_insert_within_budget.
  - apply exists__true. by rewrite Hk.
  - destruct (get_found E key ret do_touch s' it (key, value, false))
      as [s'' Hg]; [by destruct Hwf'|done..|]. by exists s''.
Qed.

(** X2. [add] on a key that is present, in a cache not in
    strong-association mode: the write is refused, and the cache left as
    it is, exactly when the write is dirty and the entry held is clean.
    Otherwise, when [add] returns, the old node is gone and the key is
    indexed to a node holding the new value and the new dirty flag. *)
Theorem X2_add_over_existing E key value dirty s s' it old :
  wf s → _strong s = false →
  cache_map s !! key = Some it → deref it (eviction_list s) = Some old →
  add E key value dirty s = Some s' →
  if dirty && negb (get2 old) then s' = s
  else wf s' ∧ deref it (eviction_list s') = None ∧
       ∃ it', cache_map s' !! key = Some it' ∧
              deref it' (eviction_list s') = Some (key, value, dirty).
Proof.
  intros Hwf Hs Hk He Hadd.
  apply add_weak_inv in Hadd as [[Hr ->]|(s1 & Hr & Hadd)]; [| |done].
  - apply remove_dirty_inv in Hr as [(? & _)|(it0 & e0 & Hk0 & He0 & Hr)];
      [congruence|]. simplify_eq.
    destruct (dirty && negb (get2 old)); [done|]. by destruct Hr.
  - assert (wf s1) as Hwf1 by by eapply remove_dirty_wf.
    apply remove_dirty_frame in Hr as Hfr.
    destruct Hfr as (_ & _ & _ & Hk1). specialize (Hk1 eq_refl).
    apply remove_dirty_inv in Hr as [(? & _)|(it0 & e0 & Hk0 & He0 & Hr)];
      [congruence|]. simplify_eq.
    destruct (dirty && negb (get2 old)); [by destruct Hr|].
    destruct Hr as [_ Hs1]. split_and!.
    + by eapply add_insert_wf.
    + apply add_insert_inv in Hadd as (s2 & Hfit & ->).
      apply fit_erase_frame in Hfit as (_ & _ & Hnext & [ev Hev] & _).
      simpl in Hnext, Hev. rewrite Hs1 /= in Hnext, Hev.
      pose proof Hwf as [Hnd Hfr _].
      assert (it ∉ (eviction_list s2).*1) as Hnin.
      { intros Hin. apply (unlink_ids it (eviction_list s) old); [done..|].
        rewrite Hev fmap_app elem_of_app. by left. }
      assert (it ≠ next_node s2) as Hne.
      { rewrite Hnext. apply deref_elem_of in He.
        apply (list_elem_of_fmap_2 fst) in He. apply Hfr in He. simpl in He.
        lia. }
      apply deref_None. destruct E; simpl.
      * rewrite not_elem_of_cons. done.
      * rewrite fmap_app not_elem_of_app /=. split; [done|].
        by rewrite list_elem_of_singleton.
    + by eapply add_insert_lookup.
Qed.

(** X3. [add] of a key that is not in a well-formed cache, not in
    strong-association mode, when there is room for the value (no limit,
    or the new [current_size] within [max_size]): [add] returns, nothing
    is evicted, the new entry is put at the front (LRU) or at the back
    (MRU) of the list as it was, [size()] grows by the size of the value
    and every other key leads to the entry it led to. *)
Theorem X3_add_with_room_evicts_nothing E key value dirty s :
  wf s → _strong s = false → exists_ key s = false →
  (0 < max_size s →
   to_size_t (current_size s + calc_size value) ≤ max_size s) →
  ∃ s', add E key value dirty s = Some s' ∧ wf s' ∧
    eviction_list s'
    = match E with
      | lru_eviction => (next_node s, (key, value, dirty)) :: eviction_list s
      | mru_eviction => eviction_list s ++ [(next_node s, (key, value, dirty))]
      end ∧
    size s' = to_size_t (size s + calc_size value) ∧
    entry_of key s' = Some (key, value, dirty) ∧
    ∀ key', key' ≠ key → entry_of key' s' = entry_of key' s.
Proof.
  intros Hwf Hs Hk%exists__false Hroom.
  destruct (add_insert_room E key value dirty s)
    as (s1 & Hadd & Hwf1 & _ & _ & Hl & Hcur & Hkey & Hothers); [done..|].
  exists s1. split_and!; try done.
  unfold add, remove_dirty. rewrite Hs Hk /= add__weak //.
Qed.

(** X4. [add] of a write that is not refused, on a cache not in
    strong-association mode: the entries of the other keys keep their
    order, those evicted are the back of the list and are gone from the
    index, and the new entry is at the front (LRU) or at the back
    (MRU). *)
Theorem X4_add_evicts_from_the_back E key value dirty s s' :
  wf s → _strong s = false →
  refuses dirty (entry_of key s) = false →
  add E key value dirty s = Some s' →
  ∃ kept evicted,
    filter (λ n : node K V, get0 n.2 ≠ key) (eviction_list s)
    = kept ++ evicted ∧
    eviction_list s'
    = match E with
      | lru_eviction => (next_node s, (key, value, dirty)) :: kept
      | mru_eviction => kept ++ [(next_node s, (key, value, dirty))]
      end ∧
    wf s' ∧
    ∀ n, n ∈ evicted → exists_ (get0 n.2) s' = false.
Proof.
  intros Hwf Hs Hacc Hadd.
  apply add_weak_inv in Hadd as [[Hr _]|(s1 & Hr & Hadd)]; [| |done].
  { apply remove_dirty_inv in Hr as [(_ & ? & _)|(it & e & Hk & He & Hr)];
      [done|].
    unfold entry_of in Hacc. rewrite Hk /= He /= in Hacc. rewrite Hacc in Hr.
    by destruct Hr. }
  assert (wf s1) as Hwf1 by by eapply remove_dirty_wf.
  apply remove_dirty_frame in Hr as Hfr.
  destruct Hfr as (_ & _ & Hnext & Hk1). specialize (Hk1 eq_refl).
  apply remove_dirty_filter in Hr as Hl; [|done].
  assert (wf s') as Hwf' by by eapply add_insert_wf.
  apply add_insert_inv in Hadd as (s2 & Hfit & Hs').
  apply fit_erase_frame in Hfit as Hfr.
  destruct Hfr as (_ & _ & Hnext2 & _). simpl in Hnext2.
  apply fit_erase_evicted in Hfit as (ev & Hev & Hgone). simpl in Hev.
  exists (eviction_list s2), ev. split_and!.
  - by rewrite -Hl.
  - subst s'. rewrite -Hnext -Hnext2. by destruct E.
  - done.
  - intros n Hin. apply exists__false. subst s'. simpl.
    rewrite lookup_insert_ne; [by apply Hgone|].
    assert (n ∈ eviction_list s1) as Hn.
    { rewrite Hev elem_of_app. by right. }
    rewrite Hl in Hn. apply list_elem_of_filter in Hn as [Hn _]. congruence.
Qed.

End add_properties.

Section add_examples.
Local Existing Instance size_calc_unit.

(** X1 at the cache of the test suite after [add(0, 15)], [add(1, 16)],
    and [add(2, 17)]. *)
Lemma X1_add_then_get_witness :
  let s : cache Z Z := filled lru_eviction test_values 1024 2 in
  wf s ∧ accounted s ∧ _strong s = false ∧
  (0 < max_size s → calc_size (test_values 2) ≤ max_size s) ∧
  ∃ s', add lru_eviction 2 (test_values 2) false s = Some s' ∧
        wf s' ∧ accounted s' ∧ within_budget s' ∧
        exists_ 2 s' = true ∧
        ∃ s'', get lru_eviction 2 0 true s' = Some (0, test_values 2, s'').
Proof.
  intros s. pose proof (filled_invariant lru_eviction test_values 1024 2
                ltac:(lia) ltac:(by vm_compute)) as (Hwf & Hacc & _).
  split; [exact Hwf|]. split; [exact Hacc|]. split; [reflexivity|].
  split; [intros _; by vm_compute|].
  apply (X1_add_then_get lru_eviction 2 (test_values 2) 0 true s Hwf Hacc);
    [reflexivity|intros _; by vm_compute].
Defined.

(** X2 at the same cache and the clean write [add(0, 16)]. *)
Lemma X2_add_over_existing_witness :
  let s : cache Z Z := filled lru_eviction test_values 1024 2 in
  let s' := default s (add lru_eviction 0 16 false s) in
  wf s ∧ _strong s = false ∧ cache_map s !! 0 = Some 0%nat ∧
  deref 0%nat (eviction_list s) = Some (0, 15, false) ∧
  add lru_eviction 0 16 false s = Some s' ∧
  wf s' ∧ deref 0%nat (eviction_list s') = None ∧
  ∃ it', cache_map s' !! 0 = Some it' ∧
         deref it' (eviction_list s') = Some (0, 16, false).
Proof.
  intros s s'. pose proof (filled_invariant lru_eviction test_values 1024 2
                ltac:(lia) ltac:(by vm_compute)) as (Hwf & Hacc & _).
  split; [exact Hwf|]. do 4 (split; [by vm_compute|]).
  apply (X2_add_over_existing lru_eviction 0 16 false s s' 0%nat
           (0, 15, false) Hwf); by vm_compute.
Defined.

(** X3 at the same cache and [add(2, 17)]. *)
Lemma X3_add_with_room_evicts_nothing_witness :
  let s : cache Z Z := filled lru_eviction test_values 1024 2 in
  wf s ∧ _strong s = false ∧ exists_ 2 s = false ∧
  (0 < max_size s → to_size_t (current_size s + calc_size 17) ≤ max_size s) ∧
  ∃ s', add lru_eviction 2 17 false s = Some s' ∧ wf s' ∧
    eviction_list s' = (next_node s, (2, 17, false)) :: eviction_list s ∧
    size s' = to_size_t (size s + calc_size 17) ∧
    entry_of 2 s' = Some (2, 17, false) ∧
    ∀ key', key' ≠ 2 → entry_of key' s' = entry_of key' s.
Proof.
  intros s. pose proof (filled_invariant lru_eviction test_values 1024 2
                ltac:(lia) ltac:(by vm_compute)) as (Hwf & Hacc & _).
  split; [exact Hwf|]. do 2 (split; [by vm_compute|]).
  split; [intros _; by vm_compute|].
  apply (X3_add_with_room_evicts_nothing lru_eviction 2 17 false s Hwf);
    [by vm_compute..|intros _; by vm_compute].
Defined.

(** X4 at the full cache of capacity 2 and [add(2, 17)], which evicts
    key 0. *)
Lemma X4_add_evicts_from_the_back_witness :
  let s : cache Z Z := filled lru_eviction test_values 2 2 in
  let s' := default s (add lru_eviction 2 17 false s) in
  wf s ∧ _strong s = false ∧ refuses false (entry_of 2 s) = false ∧
  add lru_eviction 2 17 false s = Some s' ∧
  ∃ kept evicted,
    filter (λ n : node Z Z, get0 n.2 ≠ 2) (eviction_list s)
    = kept ++ evicted ∧
    eviction_list s' = (next_node s, (2, 17, false)) :: kept ∧
    wf s' ∧
    ∀ n, n ∈ evicted → exists_ (get0 n.2) s' = false.
Proof.
  intros s s'.
  pose proof (filled_invariant lru_eviction test_values 2 2
                ltac:(lia) ltac:(by vm_compute)) as (Hwf & _ & _).
  split; [exact Hwf|]. do 3 (split; [by vm_compute|]).
  apply (X4_add_evicts_from_the_back lru_eviction 2 17 false s s' Hwf);
    by vm_compute.
Defined.
End add_examples.

(** ** [remove] *)

Section remove_properties.
Context {K : Type} `{Countable K} {V : Type} `{size_calc V}.
Implicit Types (s : cache K V) (l : eviction_type K V) (E : eviction).

(** X5. [remove(key)] returns on every well-formed cache; afterwards the
    cache is well formed, [exists(key)] is false and [get(key)] misses and
    leaves [ret] alone; accounting and capacity are kept; a key that was
    not there leaves the cache as it was. *)
Theorem X5_remove_then_absent E key ret do_touch s :
  wf s →
  ∃ s', remove key s = Some s' ∧ wf s' ∧
        exists_ key s' = false ∧
        get E key ret do_touch s' = Some (-1, ret, s') ∧
        max_size s' = max_size s ∧
        (accounted s → accounted s') ∧
        (∀ e, entry_of key s = Some e →
              size s' = to_size_t (size s - calc_size (get1 e))) ∧
        (exists_ key s = false → s' = s).
Proof.
  intros Hwf.
  destruct (remove_dirty_is_Some key false s Hwf) as [[b s1] Hr].
  apply remove_dirty_clean in Hr as Hb. subst b.
  apply remove_dirty_frame in Hr as Hfr.
  destruct Hfr as (Hmax & _ & _ & Hk1). specialize (Hk1 eq_refl).
  exists s1. split_and!.
  - unfold remove. by rewrite Hr.
  - by eapply remove_dirty_wf.
  - by apply exists__false.
  - by apply get_not_found.
  - done.
  - intros ?. by eapply remove_dirty_accounted.
  - intros e (it & Hk & He)%entry_of_Some.
    apply remove_dirty_inv in Hr as [(? & _)|(it' & e' & Hk' & He' & Hr)];
      [congruence|]. simplify_eq. simpl in Hr. by destruct Hr as [_ ->].
  - intros Hk%exists__false. unfold remove_dirty in Hr. rewrite Hk in Hr.
    by simplify_eq.
Qed.

(** X6. [remove(key)] takes the entry of [key] out of the eviction list
    and leaves the others in their order; every other key is found as
    before, with the same value. *)
Theorem X6_remove_keeps_others E key key' ret s s' :
  wf s → remove key s = Some s' → key' ≠ key →
  eviction_list s'
  = filter (λ n : node K V, get0 n.2 ≠ key) (eviction_list s) ∧
  ∃ rc v, get E key' ret false s = Some (rc, v, s) ∧
          get E key' ret false s' = Some (rc, v, s').
Proof.
  intros Hwf Hr%remove_inv Hne. split; [by eapply remove_dirty_filter|].
  rewrite !get_entry_of //; [|by eapply remove_dirty_wf].
  rewrite (remove_dirty_entry_of_ne key false key' s true s') //.
  destruct (entry_of key' s) as [e|]; eauto.
Qed.

End remove_properties.

Section remove_examples.
Local Existing Instance size_calc_unit.

(** X5 at the cache of the test suite after [add(0, 15)], [add(1, 16)],
    and [remove(0)]. *)
Lemma X5_remove_then_absent_witness :
  let s : cache Z Z := filled lru_eviction test_values 1024 2 in
  wf s ∧
  ∃ s', remove 0 s = Some s' ∧ wf s' ∧
        exists_ 0 s' = false ∧
        get lru_eviction 0 7 true s' = Some (-1, 7, s') ∧
        max_size s' = max_size s ∧
        (accounted s → accounted s') ∧
        (∀ e, entry_of 0 s = Some e →
              size s' = to_size_t (size s - calc_size (get1 e))) ∧
        (exists_ 0 s = false → s' = s).
Proof.
  intros s. pose proof (filled_invariant lru_eviction test_values 1024 2
                ltac:(lia) ltac:(by vm_compute)) as (Hwf & Hacc & _).
  split; [exact Hwf|].
  apply (X5_remove_then_absent lru_eviction 0 7 true s Hwf).
Defined.

(** X6 at the same cache: [remove(0)] leaves key 1. *)
Lemma X6_remove_keeps_others_witness :
  let s : cache Z Z := filled lru_eviction test_values 1024 2 in
  let s' := default s (remove 0 s) in
  wf s ∧ remove 0 s = Some s' ∧ 1 ≠ 0 ∧
  eviction_list s'
  = filter (λ n : node Z Z, get0 n.2 ≠ 0) (eviction_list s) ∧
  ∃ rc v, get lru_eviction 1 0 false s = Some (rc, v, s) ∧
          get lru_eviction 1 0 false s' = Some (rc, v, s').
Proof.
  intros s s'. pose proof (filled_invariant lru_eviction test_values 1024 2
                ltac:(lia) ltac:(by vm_compute)) as (Hwf & Hacc & _).
  split; [exact Hwf|]. split; [by vm_compute|]. split; [lia|].
  apply (X6_remove_keeps_others lru_eviction 0 1 0 s s' Hwf);
    [by vm_compute|lia].
Defined.
End remove_examples.

(** ** [get], [exists], [size], [empty] and [get_all] *)

Section get_properties.
Context {K : Type} `{Countable K} {V : Type} `{size_calc V}.
Implicit Types (s : cache K V) (l : eviction_type K V) (E : eviction).

(** X7. [get] changes nothing but the order of the eviction list: with
    and without tracking it returns the same code and value; the tracked
    access leaves the index, the sizes and the set of entries as they
    were, and every key is found afterwards exactly as before. *)
Theorem X7_get_only_reorders E key ret s :
  wf s →
  ∃ rc v s', get E key ret true s = Some (rc, v, s') ∧
    get E key ret false s = Some (rc, v, s) ∧
    eviction_list s' ≡ₚ eviction_list s ∧
    cache_map s' = cache_map s ∧ current_size s' = current_size s ∧
    max_size s' = max_size s ∧ wf s' ∧
    ∀ key' ret', ∃ rc' v',
      get E key' ret' false s = Some (rc', v', s) ∧
      get E key' ret' false s' = Some (rc', v', s').
Proof.
  intros Hwf. pose proof Hwf as [Hnd _ _].
  assert (∀ s', cache_map s' = cache_map s →
            (∀ it, deref it (eviction_list s') = deref it (eviction_list s)) →
            ∀ key' ret', ∃ rc' v',
              get E key' ret' false s = Some (rc', v', s) ∧
              get E key' ret' false s' = Some (rc', v', s')) as Hsame.
  { intros s' Hm Hd key' ret'. unfold get. rewrite Hm.
    destruct (cache_map s !! key') as [it'|] eqn:Hk'.
    - destruct (wf_lookup_deref s key' it') as (v & d & He'); [done..|].
      exists 0, v. by rewrite Hd He'.
    - by exists (-1), ret'. }
  destruct (cache_map s !! key) as [it|] eqn:Hk.
  - destruct (wf_lookup_deref s key it) as (v & d & He); [done..|].
    destruct (touch__is_Some E it s) as [s' Ht]; [by eauto|].
    pose proof (touch__deref E it it s s' Hnd Ht) as He'.
    exists 0, v, s'.
    apply touch__perm in Ht as Hp. destruct Hp as (l & Hs' & Hp).
    split_and!.
    + unfold get, touch. by rewrite Hk Ht /= He' He.
    + unfold get. by rewrite Hk He.
    + subst s'. by simpl.
    + by subst s'.
    + by subst s'.
    + by subst s'.
    + by eapply touch__wf.
    + apply Hsame; [by subst s'|].
      intros it0. by eapply touch__deref.
  - exists (-1), ret, s. split_and!; try done.
    + by apply get_not_found.
    + by apply get_not_found.
    + by apply Hsame.
Qed.

(** X8. A tracked [get] of a key that is present moves its node to the
    front of the eviction list of an LRU cache and to the back of the list
    of an MRU cache; the other nodes keep their order. *)
Theorem X8_get_moves_entry E key ret s it e :
  wf s → cache_map s !! key = Some it →
  deref it (eviction_list s) = Some e →
  ∃ l1 l2, eviction_list s = l1 ++ (it, e) :: l2 ∧
    get E key ret true s
    = Some (0, get1 e,
            with_list match E with
                      | lru_eviction => (it, e) :: l1 ++ l2
                      | mru_eviction => l1 ++ l2 ++ [(it, e)]
                      end s).
Proof.
  intros [Hnd _ _] Hk He.
  destruct (unlink_split _ _ _ He) as (l1 & l2 & Hl & Hu).
  exists l1, l2. split; [done|].
  destruct (touch__is_Some E it s) as [s' Ht]; [by eauto|].
  pose proof (touch__deref E it it s s' Hnd Ht) as He'.
  unfold get, touch. rewrite Hk Ht /= He' He /=.
  apply touch__inv in Ht as (e0 & He0 & ->). simplify_eq.
  rewrite Hu. destruct E; [done|]. by rewrite -assoc.
Qed.

(** X9. [exists(key)] is true exactly when the eviction list has an entry
    of that key, and [get(key)] returns 0 exactly then, and -1 otherwise;
    [get] does not change what [exists] answers. *)
Theorem X9_exists_agrees_with_get E key ret do_touch s :
  wf s →
  (exists_ key s = true ↔ ∃ it v d, (it, (key, v, d)) ∈ eviction_list s) ∧
  ∃ v s', get E key ret do_touch s
          = Some (if exists_ key s then 0 else -1, v, s') ∧
          exists_ key s' = exists_ key s.
Proof.
  intros Hwf. pose proof Hwf as [Hnd _ Hix]. split.
  - rewrite exists__true. split.
    + intros [it (v & d & Hin)%Hix]. eauto.
    + intros (it & v & d & Hin). exists it. apply Hix. eauto.
  - destruct (cache_map s !! key) as [it|] eqn:Hk.
    + destruct (wf_lookup_deref s key it) as (v & d & He); [done..|].
      destruct (get_found E key ret do_touch s it (key, v, d))
        as [s' Hg]; [done..|].
      assert (exists_ key s = true) as Hex
        by (apply exists__true; by rewrite Hk).
      exists v, s'. rewrite Hex. split; [done|].
      apply exists__true.
      apply get_inv in Hg as [(? & _)|(it0 & e0 & _ & _ & _ & Hs')];
        [congruence|].
      destruct do_touch.
      * destruct Hs' as [(l & -> & _)%touch__perm _]. simpl. by rewrite Hk.
      * destruct Hs' as [-> _]. by rewrite Hk.
    + assert (exists_ key s = false) as Hex by by apply exists__false.
      exists ret, s. rewrite Hex. split; [|done]. by apply get_not_found.
Qed.

(** X11. [get_all(func)] on a well-formed cache calls [func] once for every
    live entry, with its key and its value, and for nothing else: it
    folds [func] along a list that is a permutation of the (key, value)
    pairs of the eviction list. *)
Theorem X11_get_all_visits_every_entry s :
  wf s →
  ∃ visited : list (K * V),
    visited ≡ₚ (λ n : node K V, (get0 n.2, get1 n.2)) <$> eviction_list s ∧
    ∀ (A : Type) (func : K → V → A → A) (a : A),
      get_all func s a = Some (foldl (λ acc p, func p.1 p.2 acc) a visited).
Proof.
  intros Hwf. pose proof Hwf as [Hnd _ _].
  exists (omap (λ cur, e ← deref cur.2 (eviction_list s);
                       Some (cur.1, get1 e))
               (map_to_list (cache_map s))).
  split.
  - rewrite (wf_index_perm s Hwf).
    assert (∀ l', l' ⊆ eviction_list s →
      omap (λ cur, e ← deref cur.2 (eviction_list s); Some (cur.1, get1 e))
           ((λ n : node K V, (get0 n.2, n.1)) <$> l')
      = (λ n : node K V, (get0 n.2, get1 n.2)) <$> l') as ->; [|done..].
    induction l' as [|n l' IH]; intros Hsub; csimpl; [done|].
    rewrite (elem_of_deref n.1 (eviction_list s) n.2) //=.
    + rewrite IH //. intros x Hx. apply Hsub. by right.
    + destruct n. apply Hsub. by left.
  - intros A func a. unfold get_all. apply get_all_fold.
    apply Forall_forall. intros [k it] Hin%elem_of_map_to_list. simpl.
    destruct (wf_lookup_deref s k it) as (v & d & ->); done.
Qed.

End get_properties.

Section size_properties.
Context {K : Type} `{Countable K} {V : Type}.
Local Existing Instance size_calc_unit.

(** X10. With the primary [size_calc] (every entry counts 1), [size()] of a
    well-formed cache with its books in order is the number of keys of the
    index, which is the number of nodes of the eviction list, and
    [empty()] holds exactly when the index has no key. *)
Theorem X10_size_counts_entries (s : cache K V) :
  wf s → accounted s →
  Z.of_nat (length (eviction_list s)) < size_t_modulus →
  length (map_to_list (cache_map s)) = length (eviction_list s) ∧
  size s = Z.of_nat (length (map_to_list (cache_map s))) ∧
  (empty s = true ↔ cache_map s = ∅).
Proof.
  intros Hwf Hacc Hlen.
  assert (length (map_to_list (cache_map s)) = length (eviction_list s))
    as Hcount.
  { by rewrite (wf_index_perm s Hwf) length_fmap. }
  assert (size s = Z.of_nat (length (map_to_list (cache_map s)))) as Hsize.
  { unfold size. rewrite Hacc total_size_unit Hcount.
    apply to_size_t_small. lia. }
  split_and!; [done..|].
  unfold empty. rewrite bool_decide_eq_true Hsize.
  rewrite -map_to_list_empty_iff.
  destruct (map_to_list (cache_map s)); simpl; [done|].
  split; [lia|done].
Qed.
End size_properties.

Section get_examples.
Local Existing Instance size_calc_unit.

(** X7 at the cache of the test suite after [add(0, 15)], [add(1, 16)],
    and [get(0)]. *)
Lemma X7_get_only_reorders_witness :
  let s : cache Z Z := filled lru_eviction test_values 1024 2 in
  wf s ∧
  ∃ rc v s', get lru_eviction 0 7 true s = Some (rc, v, s') ∧
    get lru_eviction 0 7 false s = Some (rc, v, s) ∧
    eviction_list s' ≡ₚ eviction_list s ∧
    cache_map s' = cache_map s ∧ current_size s' = current_size s ∧
    max_size s' = max_size s ∧ wf s' ∧
    ∀ key' ret', ∃ rc' v',
      get lru_eviction key' ret' false s = Some (rc', v', s) ∧
      get lru_eviction key' ret' false s' = Some (rc', v', s').
Proof.
  intros s. pose proof (filled_invariant lru_eviction test_values 1024 2
                ltac:(lia) ltac:(by vm_compute)) as (Hwf & Hacc & _).
  split; [exact Hwf|].
  apply (X7_get_only_reorders lru_eviction 0 7 s Hwf).
Defined.

(** X8 at the same cache: [get(0)] moves the node of key 0 from the back
    to the front. *)
Lemma X8_get_moves_entry_witness :
  let s : cache Z Z := filled lru_eviction test_values 1024 2 in
  wf s ∧ cache_map s !! 0 = Some 0%nat ∧
  deref 0%nat (eviction_list s) = Some (0, 15, false) ∧
  ∃ l1 l2, eviction_list s = l1 ++ (0%nat, (0, 15, false)) :: l2 ∧
    get lru_eviction 0 7 true s
    = Some (0, 15, with_list ((0%nat, (0, 15, false)) :: l1 ++ l2) s).
Proof.
  intros s. pose proof (filled_invariant lru_eviction test_values 1024 2
                ltac:(lia) ltac:(by vm_compute)) as (Hwf & Hacc & _).
  split; [exact Hwf|]. do 2 (split; [by vm_compute|]).
  apply (X8_get_moves_entry lru_eviction 0 7 s 0%nat (0, 15, false) Hwf);
    by vm_compute.
Defined.

(** X9 at the same cache and key 1. *)
Lemma X9_exists_agrees_with_get_witness :
  let s : cache Z Z := filled lru_eviction test_values 1024 2 in
  wf s ∧
  (exists_ 1 s = true ↔ ∃ it v d, (it, (1, v, d)) ∈ eviction_list s) ∧
  ∃ v s', get lru_eviction 1 7 true s
          = Some (if exists_ 1 s then 0 else -1, v, s') ∧
          exists_ 1 s' = exists_ 1 s.
Proof.
  intros s. pose proof (filled_invariant lru_eviction test_values 1024 2
                ltac:(lia) ltac:(by vm_compute)) as (Hwf & Hacc & _).
  split; [exact Hwf|].
  apply (X9_exists_agrees_with_get lru_eviction 1 7 true s Hwf).
Defined.

(** X10 at the same cache, which has two entries. *)
Lemma X10_size_counts_entries_witness :
  let s : cache Z Z := filled lru_eviction test_values 1024 2 in
  wf s ∧ accounted s ∧
  Z.of_nat (length (eviction_list s)) < size_t_modulus ∧
  length (map_to_list (cache_map s)) = length (eviction_list s) ∧
  size s = Z.of_nat (length (map_to_list (cache_map s))) ∧
  (empty s = true ↔ cache_map s = ∅).
Proof.
  intros s. pose proof (filled_invariant lru_eviction test_values 1024 2
                ltac:(lia) ltac:(by vm_compute)) as (Hwf & Hacc & _).
  split; [exact Hwf|]. split; [exact Hacc|]. split; [by vm_compute|].
  apply (X10_size_counts_entries s Hwf Hacc). by vm_compute.
Defined.

(** X11 at the same cache. *)
Lemma X11_get_all_visits_every_entry_witness :
  let s : cache Z Z := filled lru_eviction test_values 1024 2 in
  wf s ∧
  ∃ visited : list (Z * Z),
    visited ≡ₚ (λ n : node Z Z, (get0 n.2, get1 n.2)) <$> eviction_list s ∧
    ∀ (A : Type) (func : Z → Z → A → A) (a : A),
      get_all func s a = Some (foldl (λ acc p, func p.1 p.2 acc) a visited).
Proof.
  intros s. pose proof (filled_invariant lru_eviction test_values 1024 2
                ltac:(lia) ltac:(by vm_compute)) as (Hwf & Hacc & _).
  split; [exact Hwf|]. apply (X11_get_all_visits_every_entry s Hwf).
Defined.
End get_examples.

(** ** [resize] and the loop of [fit_] *)

Section resize_properties.
Context {K : Type} `{Countable K} {V : Type} `{size_calc V}.
Implicit Types (s : cache K V) (l : eviction_type K V) (E : eviction).

(** X12. [resize] returns on every well-formed cache with its books in
    order. It sets the capacity, pops nodes off the back of the eviction
    list only, and leaves the cache well formed, accounted and within the
    new capacity; when the new capacity is 0 (no limit) or at least the
    current size, nothing is evicted. *)
Theorem X12_resize_spec n s :
  wf s → accounted s →
  ∃ s', resize n s = Some s' ∧ wf s' ∧ accounted s' ∧
        max_size s' = to_size_t n ∧ within_budget s' ∧
        (∃ evicted, eviction_list s = eviction_list s' ++ evicted ∧
           ∀ nd, nd ∈ evicted → exists_ (get0 nd.2) s' = false) ∧
        (to_size_t n = 0 ∨ current_size s ≤ to_size_t n →
         s' = with_max (to_size_t n) s).
Proof.
  intros Hwf Hacc. unfold resize.
  destruct (fit_accounted_is_Some _erase 0 (with_max (to_size_t n) s))
    as [s' Hfit].
  { by apply accounted_with_0. }
  { simpl. intros ?. rewrite to_size_t_small //. lia. }
  exists s'. split_and!.
  - done.
  - eapply fit_erase_wf; [|done]. by apply wf_with_max.
  - apply accounted_with_0. eapply fit_accounted_with; [|done].
    by apply accounted_with_0.
  - by apply fit_erase_frame in Hfit as (? & _).
  - by eapply fit_within_budget.
  - apply fit_erase_evicted in Hfit as (ev & Hev & Hgone).
    exists ev. split; [done|]. intros nd Hin. apply exists__false. auto.
  - intros Hcase. rewrite fit_within in Hfit; [by simplify_eq|].
    unfold over_budget. simpl.
    destruct Hcase as [->|Hle].
    + done.
    + rewrite (bool_decide_eq_false_2 (_ < current_size s)) ?andb_false_r //.
      lia.
Qed.

(** X13. The loop of [fit_] evicts no more than it must: the nodes it
    pops are the back of the list, and the last one it popped was popped
    with [current_size] above a positive [max_size]; when it pops nothing
    the cache is untouched. *)
Theorem X13_fit_evicts_no_more_than_needed (c : erase_map) s s' :
  0 ≤ current_size s < size_t_modulus → fit_ c s = Some s' →
  ∃ evicted, eviction_list s = eviction_list s' ++ evicted ∧
    (evicted = [] → s' = s) ∧
    ∀ n rest, evicted = n :: rest →
      0 < max_size s' ∧
      max_size s' < to_size_t (current_size s' + calc_size (get1 n.2)).
Proof.
  intros Hrange Hfit.
  apply (fit_invariant (λ s1,
    0 ≤ current_size s1 < size_t_modulus ∧
    ∃ evicted, eviction_list s = eviction_list s1 ++ evicted ∧
      (evicted = [] → s1 = s) ∧
      ∀ n rest, evicted = n :: rest →
        0 < max_size s1 ∧
        max_size s1 < to_size_t (current_size s1 + calc_size (get1 n.2))))
    in Hfit as [[_ ?] _]; [done| |].
  - intros s1 s2 (Hr1 & ev & Hev & _ & _) Hob (l & n & Hl & ->)%evict_back_inv.
    simpl. split; [apply to_size_t_range|].
    exists (n :: ev). split_and!.
    + by rewrite Hev Hl -assoc.
    + done.
    + intros n0 rest [= <- <-].
      rewrite to_size_t_plus_l Z.sub_add to_size_t_small //.
      unfold over_budget in Hob.
      apply andb_true_iff in Hob as [?%bool_decide_eq_true ?%bool_decide_eq_true].
      done.
  - split; [done|]. exists []. split_and!; [by rewrite app_nil_r|done..].
Qed.

End resize_properties.

Section resize_examples.
Local Existing Instance size_calc_unit.

(** X12 at the cache of the test suite after [add(0, 15)], [add(1, 16)],
    and [resize(1)]. *)
Lemma X12_resize_spec_witness :
  let s : cache Z Z := filled lru_eviction test_values 1024 2 in
  wf s ∧ accounted s ∧
  ∃ s', resize 1 s = Some s' ∧ wf s' ∧ accounted s' ∧
        max_size s' = to_size_t 1 ∧ within_budget s' ∧
        (∃ evicted, eviction_list s = eviction_list s' ++ evicted ∧
           ∀ nd, nd ∈ evicted → exists_ (get0 nd.2) s' = false) ∧
        (to_size_t 1 = 0 ∨ current_size s ≤ to_size_t 1 →
         s' = with_max (to_size_t 1) s).
Proof.
  intros s. pose proof (filled_invariant lru_eviction test_values 1024 2
                ltac:(lia) ltac:(by vm_compute)) as (Hwf & Hacc & _).
  split; [exact Hwf|]. split; [exact Hacc|].
  apply (X12_resize_spec 1 s Hwf Hacc).
Defined.

(** X13 at the same cache with its capacity set to 1: the loop pops the
    node of key 0. *)
Lemma X13_fit_evicts_no_more_than_needed_witness :
  let s : cache Z Z := with_max 1 (filled lru_eviction test_values 1024 2) in
  let s' := default s (fit_ _erase s) in
  0 ≤ current_size s < size_t_modulus ∧ fit_ _erase s = Some s' ∧
  ∃ evicted, eviction_list s = eviction_list s' ++ evicted ∧
    (evicted = [] → s' = s) ∧
    ∀ n rest, evicted = n :: rest →
      0 < max_size s' ∧
      max_size s' < to_size_t (current_size s' + calc_size (get1 n.2)).
Proof.
  intros s s'.
  assert (0 ≤ current_size s < size_t_modulus) as Hrange
    by (split; by vm_compute).
  split; [exact Hrange|]. split; [by vm_compute|].
  apply (X13_fit_evicts_no_more_than_needed _erase s s' Hrange).
  by vm_compute.
Defined.
End resize_examples.

(** ** [merge] *)

Section merge_properties.
Context {K : Type} `{Countable K} {V : Type} `{size_calc V} `{value_ops V}.
Implicit Types (s : cache K V) (E : eviction).

(** X14. [merge(key, value, dirty)] on a key that is not in the cache, or
    on a cache in strong-association mode, is [add(key, value, dirty)]:
    nothing is merged or trimmed. *)
Theorem X14_merge_absent_is_add E key value dirty s :
  _strong s = true ∨ cache_map s !! key = None →
  merge E key value dirty s = add E key value dirty s.
Proof.
  intros Hcase. unfold merge, add. destruct (_strong s) eqn:Hs; [done|].
  destruct Hcase as [|Hk]; [done|]. unfold remove_dirty. by rewrite Hk.
Qed.

(** X16. A cache in strong-association mode never stores anything: in
    every state a constructor call and public operations produce, [add]
    and [merge] return the cache unchanged, every [get] misses, and the
    cache is empty. *)
Theorem X16_strong_cache_ignores_writes E s :
  trim_exact → reachable E s → _strong s = true →
  (∀ key value dirty,
     add E key value dirty s = Some s ∧ merge E key value dirty s = Some s) ∧
  (∀ key ret do_touch, get E key ret do_touch s = Some (-1, ret, s)) ∧
  (∀ key, exists_ key s = false) ∧
  empty s = true.
Proof.
  intros Htrim Hinv%reachable_invariant Hs; [|done].
  pose proof Hinv as (Hwf & Hacc & Hse).
  assert (∀ key, cache_map s !! key = None) as Habs.
  { intros key. by apply invariant_strong_absent. }
  split_and!.
  - intros key value dirty. split; [by apply add_strong_absent|].
    unfold merge. rewrite Hs. by apply add__strong_absent.
  - intros key ret do_touch. by apply get_not_found.
  - intros key. by apply exists__false.
  - unfold empty, size. by rewrite Hacc (Hse Hs).
Qed.
End merge_properties.

Section merge_examples_unit.
Local Existing Instance size_calc_unit.
Local Existing Instance counter_ops.

(** X14 at the cache of the test suite after [add(0, 15)], [add(1, 16)],
    and key 5. *)
Lemma X14_merge_absent_is_add_witness :
  let s : cache Z Z := filled lru_eviction test_values 1024 2 in
  (_strong s = true ∨ cache_map s !! 5 = None) ∧
  merge lru_eviction 5 20 false s = add lru_eviction 5 20 false s.
Proof.
  intros s.
  assert (_strong s = true ∨ cache_map s !! 5 = None) as Hcase
    by (right; by vm_compute).
  split; [exact Hcase|].
  apply (X14_merge_absent_is_add lru_eviction 5 20 false s Hcase).
Defined.

End merge_examples_unit.

Section merge_examples_counter.
Local Existing Instance size_calc_counter.
Local Existing Instance counter_ops.

(** X16 at [lru_cache<int, counter> cache(1024, true)]. *)
Lemma X16_strong_cache_ignores_writes_witness :
  let s : cache Z Z := cache_new 1024 true in
  trim_exact (H0:=size_calc_counter) (H1:=counter_ops) ∧
  reachable lru_eviction s ∧ _strong s = true ∧
  (∀ key value dirty,
     add lru_eviction key value dirty s = Some s ∧
     merge lru_eviction key value dirty s = Some s) ∧
  (∀ key ret do_touch,
     get lru_eviction key ret do_touch s = Some (-1, ret, s)) ∧
  (∀ key, exists_ key s = false) ∧
  empty s = true.
Proof.
  intros s.
  assert (reachable lru_eviction s) as Hreach by apply reachable_new.
  split; [exact counter_trim_exact|]. split; [exact Hreach|].
  split; [reflexivity|].
  apply (X16_strong_cache_ignores_writes lru_eviction s counter_trim_exact
           Hreach).
  reflexivity.
Defined.
End merge_examples_counter.

(** ** [add] followed by [remove] *)

Section add_remove.
Context {K : Type} `{Countable K} {V : Type} `{size_calc V}.
Implicit Types (s : cache K V) (l : eviction_type K V) (E : eviction).

(** The cache after [add] of a new key with room for its value. *)
Lemma add_new_key_room E key value dirty s :
  _strong s = false → cache_map s !! key = None →
  (0 < max_size s →
   to_size_t (current_size s + calc_size value) ≤ max_size s) →
  add E key value dirty s
  = Some (mk_cache
            match E with
            | lru_eviction =>
                (next_node s, (key, value, dirty)) :: eviction_list s
            | mru_eviction =>
                eviction_list s ++ [(next_node s, (key, value, dirty))]
            end
            (S (next_node s))
            (to_size_t (current_size s + calc_size value))
            (max_size s) (<[key := next_node s]> (cache_map s)) (_strong s)).
Proof.
  intros Hs Hk Hroom. unfold add, remove_dirty.
  rewrite {1}Hs Hk /= add__weak //. unfold add_insert.
  rewrite fit_within; [by destruct E|].
  unfold over_budget. simpl.
  destruct (decide (0 < max_size s)) as [Hpos|Hpos].
  - rewrite (bool_decide_eq_false_2 (max_size s < _)) ?andb_false_r //.
    specialize (Hroom Hpos). lia.
  - by rewrite bool_decide_eq_false_2.
Qed.

(** X17. [add] of a key that is not in the cache, with room for its
    value, followed by [remove] of that key gives the cache back: the
    eviction list, the index, [current_size] and [max_size] are those
    before the [add]; only a list node has been allocated and freed. *)
Theorem X17_add_then_remove E key value dirty s :
  wf s → _strong s = false → exists_ key s = false →
  (0 < max_size s →
   to_size_t (current_size s + calc_size value) ≤ max_size s) →
  0 ≤ current_size s < size_t_modulus →
  ∃ s1, add E key value dirty s = Some s1 ∧
        remove key s1 = Some (with_next (S (next_node s)) s).
Proof.
  intros Hwf Hs Hk%exists__false Hroom Hrange.
  eexists. split; [by apply add_new_key_room|].
  assert (next_node s ∉ (eviction_list s).*1) as Hfresh.
  { intros Hin. apply (wf_fresh s Hwf) in Hin. lia. }
  unfold remove, remove_dirty. simpl. rewrite lookup_insert_eq.
  assert (to_size_t (to_size_t (current_size s + calc_size value)
                     - calc_size value) = current_size s) as Hcur.
  { rewrite to_size_t_minus_l Z.add_simpl_r. by apply to_size_t_small. }
  unfold remove_, list_erase, with_next. destruct E; simpl.
  - repeat (rewrite decide_True //=).
    by rewrite delete_insert_id // /get1 /= Hcur.
  - repeat (rewrite deref_snoc //=). rewrite unlink_snoc //.
    by rewrite delete_insert_id // /get1 /= Hcur.
Qed.
End add_remove.

Section add_remove_example.
Local Existing Instance size_calc_unit.

(** X17 at the cache of the test suite after [add(0, 15)], [add(1, 16)]:
    [add(2, 17)], then [remove(2)]. *)
Lemma X17_add_then_remove_witness :
  let s : cache Z Z := filled lru_eviction test_values 1024 2 in
  wf s ∧ _strong s = false ∧ exists_ 2 s = false ∧
  (0 < max_size s → to_size_t (current_size s + calc_size 17) ≤ max_size s) ∧
  0 ≤ current_size s < size_t_modulus ∧
  ∃ s1, add lru_eviction 2 17 false s = Some s1 ∧
        remove 2 s1 = Some (with_next (S (next_node s)) s).
Proof.
  intros s.
  pose proof (filled_invariant lru_eviction test_values 1024 2
                ltac:(lia) ltac:(by vm_compute)) as (Hwf & _ & _).
  assert (0 ≤ current_size s < size_t_modulus) as Hrange
    by (split; by vm_compute).
  split; [exact Hwf|]. do 2 (split; [by vm_compute|]).
  split; [intros _; by vm_compute|]. split; [exact Hrange|].
  apply (X17_add_then_remove lru_eviction 2 17 false s Hwf);
    [by vm_compute..|intros _; by vm_compute|exact Hrange].
Defined.
End add_remove_example.

(** ** No operation on a state of the program is undefined *)

Section defined_behaviour.
Context {K : Type} `{Countable K} {V : Type} `{size_calc V} `{value_ops V}.
Implicit Types (s : cache K V) (E : eviction).

Lemma get_is_Some E key ret do_touch s :
  wf s → is_Some (get E key ret do_touch s).
Proof.
  intros Hwf. destruct (cache_map s !! key) as [it|] eqn:Hk.
  - destruct (wf_lookup_deref s key it) as (v & d & He); [done..|].
    destruct (get_found E key ret do_touch s it (key, v, d)) as [s' ->];
      [by destruct Hwf|done..].
  - by rewrite get_not_found.
Qed.

Lemma add_is_Some E key value dirty s :
  invariant s → (0 < max_size s → calc_size value ≤ max_size s) →
  is_Some (add E key value dirty s).
Proof.
  intros Hinv Hfits. pose proof Hinv as (Hwf & Hacc & _).
  destruct (_strong s) eqn:Hs.
  { rewrite add_strong_absent //. by apply invariant_strong_absent. }
  destruct (remove_dirty_is_Some key dirty s Hwf) as [[b s1] Hr].
  unfold add. rewrite Hs Hr /=. destruct b; simpl; [|done].
  apply remove_dirty_frame in Hr as Hfr. destruct Hfr as (Hmax & Hs1 & _).
  rewrite add__weak; [|congruence].
  apply add_insert_is_Some; [by eapply remove_dirty_accounted|].
  by rewrite Hmax.
Qed.

Lemma merge_is_Some E key value dirty s :
  trim_exact → invariant s →
  (_strong s = false ∧ exists_ key s = true) ∨
  (0 < max_size s → calc_size value ≤ max_size s) →
  is_Some (merge E key value dirty s).
Proof.
  intros Htrim Hinv Hcase. pose proof Hinv as (Hwf & Hacc & _).
  destruct (_strong s) eqn:Hs.
  { unfold merge. rewrite Hs add__strong_absent //.
    by apply invariant_strong_absent. }
  destruct (cache_map s !! key) as [it|] eqn:Hk.
  - destruct (wf_lookup_deref s key it) as (v & d & He); [done..|].
    rewrite (merge_present E key value dirty s it (key, v, d)) //;
      [|by destruct Hwf].
    apply (fit_accounted_is_Some _ 0).
    + apply accounted_with_0. by apply merge_combined_accounted.
    + simpl. intros ?. rewrite to_size_t_small //. lia.
  - unfold merge. rewrite Hs Hk add__weak //.
    apply add_insert_is_Some; [done|].
    destruct Hcase as [[_ Hex]|Hfits]; [|done].
    apply exists__true in Hex as [??]. congruence.
Qed.

(** X18. In every state a constructor call and public operations produce
    (trim assumed exact) no list is read when empty and no stale iterator
    is dereferenced by [get], [remove], [resize] and [get_all], which
    return whatever their arguments, by [add] and [merge] of a value that
    fits the capacity, or by [merge] on a key that is present. *)
Theorem X18_operations_return E s :
  trim_exact → reachable E s →
  (∀ key ret do_touch, is_Some (get E key ret do_touch s)) ∧
  (∀ key, is_Some (remove key s)) ∧
  (∀ n, is_Some (resize n s)) ∧
  (∀ (A : Type) (func : K → V → A → A) (a : A), is_Some (get_all func s a)) ∧
  (∀ key value dirty,
     (0 < max_size s → calc_size value ≤ max_size s) →
     is_Some (add E key value dirty s) ∧
     is_Some (merge E key value dirty s)) ∧
  (∀ key value dirty,
     _strong s = false → exists_ key s = true →
     is_Some (merge E key value dirty s)).
Proof.
  intros Htrim Hinv%reachable_invariant; [|done].
  pose proof Hinv as (Hwf & Hacc & _). split_and!.
  - intros key ret do_touch. by apply get_is_Some.
  - intros key. unfold remove. apply fmap_is_Some.
    by apply remove_dirty_is_Some.
  - intros n. unfold resize. apply (fit_accounted_is_Some _ 0).
    + by apply accounted_with_0.
    + simpl. intros ?. rewrite to_size_t_small //. lia.
  - intros A func a. unfold get_all. rewrite get_all_fold; [done|].
    apply Forall_forall. intros [k it] Hin%elem_of_map_to_list. simpl.
    destruct (wf_lookup_deref s k it) as (v & d & ->); done.
  - intros key value dirty Hfits. split.
    + by apply add_is_Some.
    + apply merge_is_Some; auto.
  - intros key value dirty Hs Hex. apply merge_is_Some; auto.
Qed.
End defined_behaviour.

Section defined_behaviour_example.
Local Existing Instance size_calc_string.
Local Existing Instance string_ops.

(** X18 at the cache of the "Customization" test after
    [add(0, "0123456789")]. *)
Lemma X18_operations_return_witness :
  let s := string_test_cache in
  trim_exact (H0:=size_calc_string) (H1:=string_ops) ∧
  reachable lru_eviction s ∧
  (∀ key ret do_touch, is_Some (get lru_eviction key ret do_touch s)) ∧
  (∀ key, is_Some (remove key s)) ∧
  (∀ n, is_Some (resize n s)) ∧
  (∀ (A : Type) (func : Z → string → A → A) (a : A),
     is_Some (get_all func s a)) ∧
  (∀ key value dirty,
     (0 < max_size s → calc_size value ≤ max_size s) →
     is_Some (add lru_eviction key value dirty s) ∧
     is_Some (merge lru_eviction key value dirty s)) ∧
  (∀ key value dirty,
     _strong s = false → exists_ key s = true →
     is_Some (merge lru_eviction key value dirty s)).
Proof.
  intros s. split; [exact string_trim_exact|].
  split; [exact string_test_cache_reachable|].
  apply (X18_operations_return lru_eviction s string_trim_exact
           string_test_cache_reachable).
Defined.
End defined_behaviour_example.

End cpp_cache.
